(** * bim_inner_join: k-way sorted merge join of PLINK .bim files

    A shallow embedding of [src/bim_inner_join.cpp] and the properties of
    its merge driver, allele matcher, line reader and result sink. *)

From Stdlib Require Import NArith Ascii String DecimalString DecimalPos DecimalN.
From stdpp Require Import gmap strings list.

Local Open Scope N_scope.
Local Open Scope string_scope.

(** ** Variant records (struct Variant) *)

(** [unsigned int] fields are numbers below [2^32]; the comparisons never
    compute with them, so only the line reader has to wrap. *)
Definition UINT_MAX : N := 4294967295.

Record Variant := mkVariant {
  chrom : N;
  name : string;
  position : N;
  a1 : string;
  a2 : string
}.

Module Variant.

(** [operator==]: same chromosome and same position. *)
Definition eq (this that : Variant) : bool :=
  N.eqb (chrom this) (chrom that) && N.eqb (position this) (position that).

(** [operator!=] *)
Definition ne (this that : Variant) : bool := negb (eq this that).

(** [operator<] *)
Definition lt (this that : Variant) : bool :=
  if negb (N.eqb (chrom this) (chrom that))
  then N.ltb (chrom this) (chrom that)
  else N.ltb (position this) (position that).

(** [operator>] *)
Definition gt (this that : Variant) : bool :=
  if negb (N.eqb (chrom this) (chrom that))
  then N.ltb (chrom that) (chrom this)
  else N.ltb (position that) (position this).

(** [a != "0"] on allele strings. *)
Definition not_sentinel (a : string) : bool := negb (String.eqb a "0").

(** The conditional [alleles.insert(a)] of [alleles_eq]. *)
Definition insert_allele (a : string) (alleles : gset string) : gset string :=
  if not_sentinel a then {[ a ]} ∪ alleles else alleles.

(** The [std::unordered_set] built by [alleles_eq], in insertion order. *)
Definition alleles (this that : Variant) : gset string :=
  insert_allele (a2 that)
    (insert_allele (a1 that)
      (insert_allele (a2 this)
        (insert_allele (a1 this) ∅))).

Definition alleles_eq (this that : Variant) : bool :=
  let locus_match := eq this that in
  let alleles_match := bool_decide (size (alleles this that) ≤ 2)%nat in
  locus_match && alleles_match.

End Variant.

(** ** Input streams (std::ifstream, std::istringstream)

    A stream is the text not yet read and the two state bits the program
    can observe.  [good] is [!eof && !fail]. *)

Record istream := mkStream {
  buf : string;
  eofbit : bool;
  failbit : bool
}.

Definition open_stream (content : string) : istream :=
  {| buf := content; eofbit := false; failbit := false |}.

Definition eof (f : istream) : bool := eofbit f.
Definition good (f : istream) : bool := negb (eofbit f) && negb (failbit f).

Definition newline : ascii := "010"%char.

(** The characters up to the first line feed, and what follows it
    ([None] when the end of the text came first). *)
Fixpoint read_line (s : string) : string * option string :=
  match s with
  | EmptyString => (EmptyString, None)
  | String c s' =>
      if Ascii.eqb c newline then (EmptyString, Some s')
      else let '(l, r) := read_line s' in (String c l, r)
  end.

(** [std::getline(file, line)] with a fresh [line]: a stream that is not
    good only gets its fail bit set; otherwise a line is extracted, the
    line feed is dropped, and reaching the end sets the eof bit (and the
    fail bit when nothing was extracted). *)
Definition getline (f : istream) : istream * string :=
  if good f then
    match read_line (buf f) with
    | (line, Some rest) => ({| buf := rest; eofbit := false; failbit := false |}, line)
    | (line, None) =>
        ({| buf := ""; eofbit := true; failbit := String.eqb line "" |}, line)
    end
  else ({| buf := buf f; eofbit := eofbit f; failbit := true |}, "").

(** [isspace] in the C locale. *)
Definition isspace (c : ascii) : bool :=
  let n := N_of_ascii c in N.eqb n 32 || (N.leb 9 n && N.leb n 13).

Fixpoint skipws (s : string) : string :=
  match s with
  | EmptyString => EmptyString
  | String c s' => if isspace c then skipws s' else s
  end.

(** The sentry of a formatted extraction: fails on a stream that is not
    good, skips white space, fails at the end of the text. *)
Definition sentry (ss : istream) : istream * bool :=
  if good ss then
    match skipws (buf ss) with
    | EmptyString => ({| buf := ""; eofbit := true; failbit := true |}, false)
    | b => ({| buf := b; eofbit := false; failbit := false |}, true)
    end
  else ({| buf := buf ss; eofbit := eofbit ss; failbit := true |}, false).

(** [ss >> std::ws] *)
Definition ws (ss : istream) : istream :=
  if good ss then
    match skipws (buf ss) with
    | EmptyString => {| buf := ""; eofbit := true; failbit := false |}
    | b => {| buf := b; eofbit := false; failbit := false |}
    end
  else {| buf := buf ss; eofbit := eofbit ss; failbit := true |}.

(** The characters up to the next white space. *)
Fixpoint read_word (s : string) : string * option string :=
  match s with
  | EmptyString => (EmptyString, None)
  | String c s' =>
      if isspace c then (EmptyString, Some s)
      else let '(w, r) := read_word s' in (String c w, r)
  end.

(** [ss >> str] on a [std::string]: the target is only written when the
    sentry succeeds. *)
Definition extract_string (ss : istream) (str : string) : istream * string :=
  match sentry ss with
  | (ss1, false) => (ss1, str)
  | (ss1, true) =>
      match read_word (buf ss1) with
      | (w, Some rest) => ({| buf := rest; eofbit := false; failbit := false |}, w)
      | (w, None) => ({| buf := ""; eofbit := true; failbit := false |}, w)
      end
  end.

Definition digit_of (c : ascii) : option N :=
  let n := N_of_ascii c in
  if N.leb 48 n && N.leb n 57 then Some (n - 48) else None.

(** The decimal digits at the head of [s], most significant first. *)
Fixpoint read_digits (s : string) : list N * option string :=
  match s with
  | EmptyString => ([], None)
  | String c s' =>
      match digit_of c with
      | Some d => let '(ds, r) := read_digits s' in (d :: ds, r)
      | None => ([], Some s)
      end
  end.

Definition decimal_value (ds : list N) : N :=
  fold_left (λ acc d, 10 * acc + d) ds 0.

(** An optional sign in front of a number. *)
Definition read_sign (s : string) : bool * string :=
  match s with
  | String c s' =>
      if Ascii.eqb c "-" then (true, s')
      else if Ascii.eqb c "+" then (false, s')
      else (false, s)
  | EmptyString => (false, s)
  end.

(** [ss >> u] on an [unsigned int] (base 10, C locale): no digit stores 0
    and fails, a value above [UINT_MAX] stores [UINT_MAX] and fails, a
    minus sign negates modulo [2^32]; the target is only written when the
    sentry succeeds. *)
Definition extract_uint (ss : istream) (u : N) : istream * N :=
  match sentry ss with
  | (ss1, false) => (ss1, u)
  | (ss1, true) =>
      let '(negative, s1) := read_sign (buf ss1) in
      let '(ds, r) := read_digits s1 in
      let result := decimal_value ds in
      let at_end := match r with None => true | Some _ => false end in
      let rest := default "" r in
      match ds with
      | [] => ({| buf := rest; eofbit := at_end; failbit := true |}, 0)
      | _ =>
          if N.ltb UINT_MAX result
          then ({| buf := rest; eofbit := at_end; failbit := true |}, UINT_MAX)
          else ({| buf := rest; eofbit := at_end; failbit := false |},
                if negative then (UINT_MAX + 1 - result) mod (UINT_MAX + 1) else result)
      end
  end.

(** ** Line reader *)

(** The chain of extractions of [read_variant] on one line; the third
    field is read into a local and dropped. *)
Definition parse_line (line : string) (v : Variant) : Variant :=
  let ss := open_stream line in
  let '(ss, chrom') := extract_uint ss (chrom v) in
  let ss := ws ss in
  let '(ss, name') := extract_string ss (name v) in
  let ss := ws ss in
  let '(ss, cm) := extract_string ss "" in
  let ss := ws ss in
  let '(ss, position') := extract_uint ss (position v) in
  let ss := ws ss in
  let '(ss, a1') := extract_string ss (a1 v) in
  let ss := ws ss in
  let '(ss, a2') := extract_string ss (a2 v) in
  {| chrom := chrom'; name := name'; position := position'; a1 := a1'; a2 := a2' |}.

(** [read_variant(file, v)]: the stream after the call, the record after
    the call, and the returned flag. *)
Definition read_variant (file : istream) (v : Variant) : istream * Variant * bool :=
  let '(file', line) := getline file in
  if String.eqb line "" then (file', v, false)
  else (file', parse_line line v, true).

(** ** Result sink (struct Log, write_bim_line) *)

(** An output stream is the text written to it so far. *)
Abbreviation ostream := string (only parsing).

Definition endl : string := String newline "".
Definition tab : string := String "009"%char "".

(** [s << u] for an [unsigned int]: its decimal digits. *)
Definition show_uint (u : N) : string := NilEmpty.string_of_uint (N.to_uint u).

Record Log := mkLog {
  n_files : nat;
  names_lists : list ostream;
  matches_bim : ostream;
  mismatches_bim : ostream
}.

Definition write_bim_line (v : Variant) (file : ostream) : ostream :=
  file +:+ show_uint (chrom v) +:+ tab
       +:+ name v +:+ tab
       +:+ "0" +:+ tab
       +:+ show_uint (position v) +:+ tab
       +:+ a1 v +:+ tab
       +:+ a2 v +:+ endl.

(** Reading [li[i]] or [files[i]] outside the array is undefined in the
    source; the embedding returns these values there. *)
#[global] Instance Variant_inhabited : Inhabited Variant :=
  populate {| chrom := 0; name := ""; position := 0; a1 := ""; a2 := "" |}.
#[global] Instance istream_inhabited : Inhabited istream :=
  populate {| buf := ""; eofbit := true; failbit := true |}.

(** [log.names_lists[i] << s << std::endl] *)
Definition log_name (i : nat) (s : string) (log : Log) : Log :=
  {| n_files := n_files log;
     names_lists := <[i := (names_lists log !!! i) +:+ s +:+ endl]> (names_lists log);
     matches_bim := matches_bim log;
     mismatches_bim := mismatches_bim log |}.

(** [write_bim_line(v, log.matches_bim)] *)
Definition log_match (v : Variant) (log : Log) : Log :=
  {| n_files := n_files log;
     names_lists := names_lists log;
     matches_bim := write_bim_line v (matches_bim log);
     mismatches_bim := mismatches_bim log |}.

(** ** Allele matcher (check_match) *)

(** The first loop of [check_match]: [all_match] after comparing
    [li[1] .. li[n-1]] with the copy of [li[0]]. *)
Definition all_match (li : list Variant) (n : nat) : bool :=
  let first := li !!! 0%nat in
  fold_left
    (λ all_match i,
       if negb (Variant.alleles_eq (li !!! i) first) then false else all_match)
    (seq 1 (n - 1)) true.

(** One round of the second loop: the log and [wrote_bim_line]. *)
Definition log_member (li : list Variant) (st : Log * bool) (i : nat) : Log * bool :=
  let '(log, wrote_bim_line) := st in
  let log := log_name i (name (li !!! i)) log in
  if negb wrote_bim_line
     && Variant.not_sentinel (a1 (li !!! i))
     && Variant.not_sentinel (a2 (li !!! i))
  then (log_match (li !!! i) log, true)
  else (log, wrote_bim_line).

Definition check_match (li : list Variant) (n : nat) (log : Log) : bool * Log :=
  if all_match li n then
    let '(log, wrote_bim_line) := fold_left (log_member li) (seq 0 n) (log, false) in
    if negb wrote_bim_line
    then (true, log_match (li !!! 0%nat) log)
    else (true, log)
  else (false, log).

(** ** Merge driver *)

(** [max(li, n)]: the returned pointer [li + i] as the index [i]. *)
Definition max (li : list Variant) (n : nat) : nat :=
  fold_left
    (λ greatest i,
       if Variant.gt (li !!! i) (li !!! greatest) then i else greatest)
    (seq 1 (n - 1)) 0%nat.

(** One round of [read_variants_until_max].  [max] is a reference into
    [cur], so it is read through its index in the current array. *)
Definition read_until_max_at (max : nat) (st : list istream * list Variant) (i : nat)
  : list istream * list Variant :=
  let '(files, cur) := st in
  if Variant.lt (cur !!! i) (cur !!! max) && negb (eof (files !!! i)) then
    let '(f, v, _) := read_variant (files !!! i) (cur !!! i) in
    (<[i := f]> files, <[i := v]> cur)
  else (files, cur).

Definition read_variants_until_max
    (files : list istream) (cur : list Variant) (max : nat) (n : nat)
  : list istream * list Variant :=
  fold_left (read_until_max_at max) (seq 0 n) (files, cur).

(** One round of [read_variants]. *)
Definition read_at (st : list istream * list Variant) (i : nat)
  : list istream * list Variant :=
  let '(files, cur) := st in
  if negb (eof (files !!! i)) then
    let '(f, v, _) := read_variant (files !!! i) (cur !!! i) in
    (<[i := f]> files, <[i := v]> cur)
  else (files, cur).

Definition read_variants (files : list istream) (cur : list Variant) (n : nat)
  : list istream * list Variant :=
  fold_left read_at (seq 0 n) (files, cur).

Definition any_eof (files : list istream) (n : nat) : bool :=
  existsb (λ i, eof (files !!! i)) (seq 0 n).

(** The state of [main] once its loop is reached. *)
Record State := mkState {
  files : list istream;
  cur : list Variant;
  log : Log
}.

(** The body of the [while] loop of [main]. *)
Definition loop_body (n : nat) (st : State) : State :=
  let '(matched, log') := check_match (cur st) n (log st) in
  if negb matched then
    let max_variant := max (cur st) n in
    let '(files', cur') := read_variants_until_max (files st) (cur st) max_variant n in
    {| files := files'; cur := cur'; log := log' |}
  else
    let '(files', cur') := read_variants (files st) (cur st) n in
    {| files := files'; cur := cur'; log := log' |}.

(** [while (!any_eof(files, n_files)) ...], with the number of rounds that
    were run; [None] when [fuel] rounds were not enough to leave the loop. *)
Fixpoint main_loop (n : nat) (fuel : nat) (st : State) : option (nat * State) :=
  if any_eof (files st) n then Some (0%nat, st)
  else
    match fuel with
    | O => None
    | S fuel' =>
        match main_loop n fuel' (loop_body n st) with
        | Some (steps, st') => Some (S steps, st')
        | None => None
        end
    end.

(** ** The program (Log::open, print_usage, main) *)

(** What the program finds around it: the text of every input file that
    can be opened, the output files that can be opened for writing, and
    the indeterminate numbers in the uninitialised [cur] array. *)
Record Env := mkEnv {
  input_file : string → option string;
  can_write : string → bool;
  indeterminate : nat → N * N
}.

Definition names_filename (i : nat) : string :=
  "bij_names_" +:+ show_uint (N.of_nat (i + 1)) +:+ ".txt".

Definition could_not_write (filename : string) : string :=
  "Could not write to " +:+ filename +:+ endl.

(** [Log::open(n_files)]: the opened log, or [None] with the message sent
    to [std::cerr] when it throws. *)
Definition Log_open (env : Env) (n_files : nat) : option Log * string :=
  match List.find (λ i, negb (can_write env (names_filename i))) (seq 0 n_files) with
  | Some i => (None, could_not_write (names_filename i))
  | None =>
      if negb (can_write env "bij_matches.bim")
      then (None, could_not_write "bij_matches.bim")
      else if negb (can_write env "bij_mismatches.bim")
      then (None, could_not_write "bij_mismatches.bim")
      else (Some {| n_files := n_files;
                    names_lists := replicate n_files "";
                    matches_bim := "";
                    mismatches_bim := "" |}, "")
  end.

(** The usage text. *)
Definition usage : string :=
  "Usage: " +:+ endl +:+
  tab +:+ "bim-inner-join file1.bim [ file2.bim, ... ]" +:+ endl.

(** [print_usage()]: what it sends to [std::cout] and what it returns. *)
Definition print_usage : string * N := (usage, 1).

(** The loop of [main] that opens the inputs: the opened streams, or
    [None] at the first file that cannot be opened, and the text sent to
    [std::cout]. *)
Fixpoint open_files (env : Env) (argv : list string) (cout : string)
  : option (list istream) * string :=
  match argv with
  | [] => (Some [], cout)
  | a :: argv' =>
      let cout := cout +:+ "Opening: " +:+ a +:+ endl in
      match input_file env a with
      | None => (None, cout +:+ "Could not find file: " +:+ a +:+ endl)
      | Some content =>
          match open_files env argv' cout with
          | (Some fs, cout) => (Some (open_stream content :: fs), cout)
          | (None, cout) => (None, cout)
          end
      end
  end.

(** [Variant cur[n_files]]: empty strings, indeterminate numbers. *)
Definition uninitialised (env : Env) (i : nat) : Variant :=
  {| chrom := fst (indeterminate env i); name := "";
     position := snd (indeterminate env i); a1 := ""; a2 := "" |}.

(** The state in which [main] enters its loop. *)
Definition initial_state (env : Env) (fs : list istream) (log : Log) : State :=
  let n := length fs in
  let '(files', cur') := read_variants fs (uninitialised env <$> seq 0 n) n in
  {| files := files'; cur := cur'; log := log |}.

(** How a run ends: the exit status, both console streams, the log when
    [Log::open] got through, and the state of the merge when the inputs
    were opened and read. *)
Record Exit := mkExit {
  status : N;
  cout : string;
  cerr : string;
  outputs : option Log;
  merged : option State
}.

(** [main], on the arguments after the program name ([argc] is one more
    than their number); [None] when [fuel] rounds of the loop were not
    enough. *)
Definition main (env : Env) (args : list string) (fuel : nat) : option Exit :=
  let argc := S (length args) in
  let n_files := (argc - 1)%nat in
  match Log_open env n_files with
  | (None, err) =>
      Some {| status := 1; cout := ""; cerr := err; outputs := None; merged := None |}
  | (Some opened, _) =>
      if (argc <=? 2)%nat then
        let '(out, code) := print_usage in
        Some {| status := code; cout := out; cerr := "";
                outputs := Some opened; merged := None |}
      else
        match open_files env args "" with
        | (None, out) =>
            Some {| status := 1; cout := out; cerr := "";
                    outputs := Some opened; merged := None |}
        | (Some fs, out) =>
            match main_loop n_files fuel (initial_state env fs opened) with
            | None => None
            | Some (_, st) =>
                Some {| status := 0; cout := out; cerr := "";
                        outputs := Some (log st); merged := Some st |}
            end
        end
  end.

(** * Vocabulary of the properties *)

(** Same chromosome and same position. *)
Definition same_locus (a b : Variant) : Prop :=
  chrom a = chrom b ∧ position a = position b.

(** The wording of the data model, next to the set [Variant.alleles] that
    the code builds: the distinct alleles among the four that are not the
    sentinel, as a list without duplicates. *)
Definition known_alleles (a b : Variant) : list string :=
  remove_dups (filter (λ s, s ≠ "0") [a1 a; a2 a; a1 b; a2 b]).

(** The candidate of [max] once its scan has passed index [k]. *)
Definition scanned (li : list Variant) (k : nat) : nat :=
  fold_left
    (λ greatest i,
       if Variant.gt (li !!! i) (li !!! greatest) then i else greatest)
    (seq 1 k) 0%nat.

(** A frontier whose records agree with the reference but not with each
    other: the reference knows no allele at all. *)
Definition blind_reference : list Variant :=
  [ {| chrom := 1; name := "rs1"; position := 100; a1 := "0"; a2 := "0" |};
    {| chrom := 1; name := "rs1b"; position := 100; a1 := "A"; a2 := "G" |};
    {| chrom := 1; name := "rs1c"; position := 100; a1 := "C"; a2 := "T" |} ].

(** Both alleles of a record are known. *)
Definition both_known (v : Variant) : bool :=
  Variant.not_sentinel (a1 v) && Variant.not_sentinel (a2 v).

(** The record that stands for a matched group: the first one in index
    order with both alleles known, record 0 when there is none. *)
Definition representative (li : list Variant) (n : nat) : Variant :=
  match List.find (λ i, both_known (li !!! i)) (seq 0 n) with
  | Some i => li !!! i
  | None => li !!! 0%nat
  end.

(** One line of the six-field layout with [0] as its third field. *)
Definition bim_line (v : Variant) : string :=
  show_uint (chrom v) +:+ tab +:+ name v +:+ tab +:+ "0" +:+ tab
  +:+ show_uint (position v) +:+ tab +:+ a1 v +:+ tab +:+ a2 v +:+ endl.

(** What one stream and its cursor become when it is advanced. *)
Definition advanced (file : istream) (v : Variant) : istream * Variant :=
  (read_variant file v).1.

(** All records of the frontier are at the locus of record 0. *)
Definition same_loci (cs : list Variant) (n : nat) : bool :=
  forallb (λ i, Variant.eq (cs !!! i) (cs !!! 0%nat)) (seq 0 n).

(** The frontier fails the full-match test while all its records share
    one locus. *)
Definition tie_mismatch (n : nat) (st : State) : bool :=
  negb (all_match (cur st) n) && same_loci (cur st) n.

Fixpoint count_newlines (s : string) : nat :=
  match s with
  | EmptyString => 0
  | String c s' => (if Ascii.eqb c newline then 1 else 0) + count_newlines s'
  end.

(** The number of [getline] calls a stream can still take before its eof
    bit is set, at most. *)
Definition reads_left (f : istream) : nat :=
  if eofbit f then 0%nat else S (count_newlines (buf f)).

(** The fail bit is only ever set together with the eof bit. *)
Definition sound (f : istream) : Prop := failbit f = true → eofbit f = true.

(** The lines of a file as successive [getline] calls return them. *)
Fixpoint file_lines (s : string) : list string :=
  match s with
  | EmptyString => []
  | String c s' =>
      if Ascii.eqb c newline then "" :: file_lines s'
      else match file_lines s' with
           | [] => [String c ""]
           | l :: ls => String c l :: ls
           end
  end.

(** The records of a file are the lines [read_variant] takes for one:
    those that are not empty. *)
Definition record_count (content : string) : nat :=
  length (filter (λ l, l ≠ "") (file_lines content)).

(** The input format: every line of the file holds a record. *)
Definition one_record_per_line (content : string) : Prop :=
  Forall (λ l, l ≠ "") (file_lines content).

(** The reads left over all the streams. *)
Definition total_reads_left (fs : list istream) : nat :=
  sum_list_with reads_left fs.

(** What the loop keeps true of its state. *)
Definition merge_invariant (n : nat) (st : State) : Prop :=
  length (files st) = n ∧ length (cur st) = n
  ∧ ∀ i, (i < n)%nat → sound (files st !!! i).

(** The files [Log::open] opens, in the order it opens them. *)
Definition output_files (n : nat) : list string :=
  (names_filename <$> seq 0 n) ++ ["bij_matches.bim"; "bij_mismatches.bim"].

Definition outputs_writable (env : Env) (n : nat) : bool :=
  forallb (can_write env) (output_files n).

Definition empty_log (n : nat) : Log :=
  {| n_files := n; names_lists := replicate n "";
     matches_bim := ""; mismatches_bim := "" |}.

(** A directory in which nothing can be written. *)
Definition read_only_directory : Env :=
  {| input_file := λ _, None; can_write := λ _, false;
     indeterminate := λ _, (0, 0) |}.

(** A file holding the given records, one per line. *)
Definition bim (records : list string) : string :=
  foldr (λ r acc, r +:+ endl +:+ acc) "" records.

(** A working directory with the two inputs [f1.bim] and [f2.bim]. *)
Definition two_files (f1 f2 : string) : Env :=
  {| input_file := λ s,
       if String.eqb s "f1.bim" then Some f1
       else if String.eqb s "f2.bim" then Some f2
       else None;
     can_write := λ _, true;
     indeterminate := λ _, (0, 0) |}.

Definition scenario_A : Env :=
  two_files (bim ["1 rs1 0 100 A G"]) (bim ["1 rs1b 0 100 A G"]).
Definition scenario_B : Env :=
  two_files (bim ["1 rs1 0 100 A 0"]) (bim ["1 rs1b 0 100 A G"]).
Definition scenario_C : Env :=
  two_files (bim ["1 rs1 0 100 A G"]) (bim ["1 rs1b 0 100 C T"]).
Definition scenario_D : Env :=
  two_files (bim ["1 rs1 0 100 A G"; "1 rs2 0 200 A T"]) (bim ["1 rs2b 0 200 A T"]).

(** The state in which the loop is entered in scenario C. *)
Definition scenario_C_entry : State :=
  initial_state scenario_C
    (open_stream <$> [bim ["1 rs1 0 100 A G"]; bim ["1 rs1b 0 100 C T"]])
    (empty_log 2).

(** The state in which the loop is entered in scenario D. *)
Definition scenario_D_files : list string :=
  [bim ["1 rs1 0 100 A G"; "1 rs2 0 200 A T"]; bim ["1 rs2b 0 200 A T"]].

Definition scenario_D_entry : State :=
  initial_state scenario_D (open_stream <$> scenario_D_files) (empty_log 2).

(** Three records at two loci, the greater locus twice. *)
Definition tied_frontier : list Variant :=
  [ {| chrom := 1; name := "rs1"; position := 100; a1 := "A"; a2 := "G" |};
    {| chrom := 1; name := "rs2"; position := 200; a1 := "A"; a2 := "T" |};
    {| chrom := 1; name := "rs2b"; position := 200; a1 := "A"; a2 := "T" |} ].

(** The frontier of scenario B. *)
Definition scenario_B_frontier : list Variant :=
  [ {| chrom := 1; name := "rs1"; position := 100; a1 := "A"; a2 := "0" |};
    {| chrom := 1; name := "rs1b"; position := 100; a1 := "A"; a2 := "G" |} ].

Definition scenario_B_log : Log :=
  {| n_files := 2;
     names_lists := ["rs1" +:+ endl; "rs1b" +:+ endl];
     matches_bim := "1" +:+ tab +:+ "rs1b" +:+ tab +:+ "0" +:+ tab +:+ "100"
                    +:+ tab +:+ "A" +:+ tab +:+ "G" +:+ endl;
     mismatches_bim := "" |}.

(** The text holds no line feed. *)
Fixpoint no_newline (s : string) : bool :=
  match s with
  | EmptyString => true
  | String c s' => negb (Ascii.eqb c newline) && no_newline s'
  end.

(** The text holds no white space. *)
Fixpoint no_space (s : string) : bool :=
  match s with
  | EmptyString => true
  | String c s' => negb (isspace c) && no_space s'
  end.

(** [s] is what is left of [t] after some of its head was read. *)
Definition suffix_of (s t : string) : Prop := ∃ p, t = p +:+ s.

(** Both numbers of a record fit an [unsigned int]. *)
Definition in_range (v : Variant) : Prop :=
  (chrom v ≤ UINT_MAX)%N ∧ (position v ≤ UINT_MAX)%N.

(** A field as [>>] reads one: not empty and free of white space. *)
Definition word (s : string) : Prop := s ≠ "" ∧ no_space s = true.

(** The text starts with a character that is not white space. *)
Definition head_nonspace (s : string) : bool :=
  match s with
  | EmptyString => false
  | String c _ => negb (isspace c)
  end.

(** The digits of a decimal numeral, most significant first. *)
Fixpoint uint_digits (d : Decimal.uint) : list N :=
  match d with
  | Decimal.Nil => []
  | Decimal.D0 d => 0 :: uint_digits d
  | Decimal.D1 d => 1 :: uint_digits d
  | Decimal.D2 d => 2 :: uint_digits d
  | Decimal.D3 d => 3 :: uint_digits d
  | Decimal.D4 d => 4 :: uint_digits d
  | Decimal.D5 d => 5 :: uint_digits d
  | Decimal.D6 d => 6 :: uint_digits d
  | Decimal.D7 d => 7 :: uint_digits d
  | Decimal.D8 d => 8 :: uint_digits d
  | Decimal.D9 d => 9 :: uint_digits d
  end.

(** What [main] prints while it opens the given files. *)
Definition openings (argv : list string) : string :=
  foldr (λ a acc, "Opening: " +:+ a +:+ endl +:+ acc) "" argv.

(** The text fields of a record hold no white space. *)
Definition clean (v : Variant) : Prop :=
  no_space (name v) = true ∧ no_space (a1 v) = true ∧ no_space (a2 v) = true.

(** Every name list of the log has as many lines as the matched-records
    output. *)
Definition lines_in_step (n : nat) (lg : Log) : Prop :=
  length (names_lists lg) = n
  ∧ ∀ i, (i < n)%nat →
         count_newlines (names_lists lg !!! i) = count_newlines (matches_bim lg).

(** [operator<<(std::ostream&, const Variant&)]: the text it appends. *)
Definition show_variant (v : Variant) : string :=
  "<Variant " +:+ name v
  +:+ " chr" +:+ show_uint (chrom v) +:+ ":" +:+ show_uint (position v)
  +:+ ", [" +:+ a1 v +:+ ", " +:+ a2 v +:+ "]" +:+ ">".

(** [print_variants(li, n)] on [std::cout].  With [n = 0] the source reads
    [li[-1]]; the embedding takes [li[0]] there. *)
Definition print_variants (li : list Variant) (n : nat) (cout : string) : string :=
  fold_left (λ out i, out +:+ show_variant (li !!! i) +:+ ", ")
            (seq 0 (n - 1)) cout
  +:+ show_variant (li !!! (n - 1)%nat) +:+ endl.

(** Scenario A with no line feed after the record of the first file. *)
Definition unterminated_files : list string :=
  ["1 rs1 0 100 A G"; bim ["1 rs1b 0 100 A G"]].

Definition unterminated : Env :=
  two_files "1 rs1 0 100 A G" (bim ["1 rs1b 0 100 A G"]).

(** The state in which the loop is entered in scenario A. *)
Definition scenario_A_entry : State :=
  initial_state scenario_A
    (open_stream <$> [bim ["1 rs1 0 100 A G"]; bim ["1 rs1b 0 100 A G"]])
    (empty_log 2).

(** A record and the line written for it. *)
Definition rs1 : Variant :=
  {| chrom := 1; name := "rs1"; position := 100; a1 := "A"; a2 := "G" |}.

(** A record left over from an earlier line. *)
Definition stale : Variant :=
  {| chrom := 7; name := "rs7"; position := 700; a1 := "C"; a2 := "T" |}.

(** The record with its first, or its second, allele set to the sentinel. *)
Definition mask_a1 (v : Variant) : Variant :=
  {| chrom := chrom v; name := name v; position := position v;
     a1 := "0"; a2 := a2 v |}.

Definition mask_a2 (v : Variant) : Variant :=
  {| chrom := chrom v; name := name v; position := position v;
     a1 := a1 v; a2 := "0" |}.

(** The state of scenario A without line feeds at the end of its files:
    two files of two records each, read up to their first records. *)
Definition last_lines_entry : State :=
  initial_state scenario_A
    (open_stream <$> ["1 rs1 0 100 A G" +:+ endl +:+ "1 rs2 0 200 A T";
                      "1 rs1b 0 100 A G" +:+ endl +:+ "1 rs2b 0 200 A T"])
    (empty_log 2).

(** The lines of a file, empty ones included. *)
Definition line_count (content : string) : nat := length (file_lines content).

(** One record followed by two empty lines, against a file of one record
    at a later position. *)
Definition blank_tail_files : list string :=
  ["1 a 0 100 A G" +:+ endl +:+ endl +:+ endl; "1 b 0 200 A G" +:+ endl].

Definition blank_tail : Env :=
  two_files ("1 a 0 100 A G" +:+ endl +:+ endl +:+ endl) ("1 b 0 200 A G" +:+ endl).

(** The state in which the loop is entered on these files. *)
Definition blank_tail_entry : State :=
  initial_state blank_tail (open_stream <$> blank_tail_files) (empty_log 2).

(** * Properties *)

(** ** The order on loci *)

Ltac locus_cases :=
  unfold Variant.eq, Variant.ne, Variant.lt, Variant.gt, same_locus in *;
  repeat match goal with
  | |- context [N.eqb ?x ?y] => destruct (N.eqb_spec x y)
  | H : context [N.eqb ?x ?y] |- _ => destruct (N.eqb_spec x y)
  | |- context [N.ltb ?x ?y] => destruct (N.ltb_spec x y)
  | H : context [N.ltb ?x ?y] |- _ => destruct (N.ltb_spec x y)
  end;
  simpl in *; try congruence; try lia.

Lemma eq_same_locus a b : Variant.eq a b = true ↔ same_locus a b.
Proof. locus_cases; intuition (congruence || lia). Qed.

Lemma lt_gt a b : Variant.lt a b = Variant.gt b a.
Proof. locus_cases. Qed.

Lemma gt_irrefl a : Variant.gt a a = false.
Proof. locus_cases. Qed.

Lemma lt_irrefl a : Variant.lt a a = false.
Proof. locus_cases. Qed.

Lemma gt_trans a b c :
  Variant.gt a b = true → Variant.gt b c = true → Variant.gt a c = true.
Proof. locus_cases. Qed.

Lemma gt_asym a b : Variant.gt a b = true → Variant.gt b a = false.
Proof. locus_cases. Qed.

(** Whatever does not exceed [m] is below whatever exceeds [m]. *)
Lemma gt_above a m s :
  Variant.gt a m = false → Variant.gt s m = true → Variant.gt s a = true.
Proof. locus_cases. Qed.

Lemma not_gt_above a m s :
  Variant.gt a m = false → Variant.gt s m = true → Variant.gt a s = false.
Proof. locus_cases. Qed.

(** The order is total: two records of different loci are ordered. *)
Lemma locus_total a b :
  Variant.eq a b = false → Variant.gt a b = false → Variant.lt a b = true.
Proof. locus_cases. Qed.

(** Two records are at the same locus exactly when neither is below the
    other. *)
Lemma eq_iff_unordered a b :
  Variant.eq a b = true ↔ Variant.lt a b = false ∧ Variant.lt b a = false.
Proof. locus_cases; intuition (congruence || lia). Qed.

Lemma eq_sym a b : Variant.eq a b = Variant.eq b a.
Proof. locus_cases. Qed.

(** ** Allele compatibility *)

Lemma elem_of_insert_allele x a (X : gset string) :
  x ∈ Variant.insert_allele a X ↔ (x = a ∧ a ≠ "0") ∨ x ∈ X.
Proof.
  unfold Variant.insert_allele, Variant.not_sentinel.
  destruct (String.eqb_spec a "0") as [->|Hne]; simpl.
  - split; [by right | by intros [[_ []]|]].
  - rewrite elem_of_union, elem_of_singleton. tauto.
Qed.

Lemma alleles_as_list a b :
  Variant.alleles a b
  = list_to_set (filter (λ s, s ≠ "0") [a1 a; a2 a; a1 b; a2 b]).
Proof.
  apply set_eq. intros x. unfold Variant.alleles.
  rewrite elem_of_list_to_set, list_elem_of_filter, !elem_of_insert_allele.
  rewrite !elem_of_cons, elem_of_nil, elem_of_empty.
  split; [intros [[-> ?]|[[-> ?]|[[-> ?]|[[-> ?]|[]]]]]; tauto|].
  intros [? [->|[->|[->|[->|[]]]]]]; tauto.
Qed.

Lemma size_alleles a b :
  size (Variant.alleles a b) = length (known_alleles a b).
Proof.
  rewrite alleles_as_list. unfold known_alleles.
  set (l := filter _ _).
  rewrite <- (size_list_to_set (C := gset string) (remove_dups l))
    by apply NoDup_remove_dups.
  f_equal. apply set_eq. intros x.
  rewrite !elem_of_list_to_set. by rewrite elem_of_remove_dups.
Qed.

(** C2: [alleles_eq(a, b)] holds exactly when [a] and [b] are at the same
    locus (same chromosome, same position) and the distinct alleles among
    [a.a1], [a.a2], [b.a1], [b.a2] other than the sentinel ["0"] number at
    most two. *)
Theorem alleles_eq_iff (a b : Variant) :
  Variant.alleles_eq a b = true
  ↔ same_locus a b ∧ (length (known_alleles a b) ≤ 2)%nat.
Proof.
  unfold Variant.alleles_eq. rewrite andb_true_iff, bool_decide_eq_true.
  by rewrite eq_same_locus, size_alleles.
Qed.

(** ** Maximum selection *)

Lemma max_scanned li n : max li n = scanned li (n - 1).
Proof. reflexivity. Qed.

Lemma scanned_S li k :
  scanned li (S k)
  = if Variant.gt (li !!! S k) (li !!! scanned li k) then S k else scanned li k.
Proof. unfold scanned. by rewrite seq_S, fold_left_app. Qed.

(** After the scan has passed index [k] the candidate is in range, nothing
    scanned exceeds it, and everything before it is strictly below it. *)
Lemma scanned_invariant li k :
  (scanned li k ≤ k)%nat
  ∧ (∀ i, (i ≤ k)%nat → Variant.gt (li !!! i) (li !!! scanned li k) = false)
  ∧ (∀ i, (i < scanned li k)%nat →
          Variant.gt (li !!! scanned li k) (li !!! i) = true).
Proof.
  induction k as [|k (Hle & Hmax & Hfirst)].
  - repeat split; [done| |intros i Hi; cbn in Hi; lia].
    intros i Hi. assert (i = 0%nat) as -> by lia. apply gt_irrefl.
  - rewrite scanned_S.
    destruct (Variant.gt (li !!! S k) (li !!! scanned li k)) eqn:Hgt.
    + repeat split; [done| |].
      * intros i Hi. destruct (decide (i = S k)) as [->|].
        -- apply gt_irrefl.
        -- eapply not_gt_above; [apply Hmax; lia | done].
      * intros i Hi. eapply gt_above; [apply Hmax; lia | done].
    + repeat split; [lia| |done].
      intros i Hi. destruct (decide (i = S k)) as [->|]; [done|].
      apply Hmax. lia.
Qed.

(** C5: on a non-empty frontier [max] returns an index of the frontier
    whose record no record exceeds, and it is the smallest such index:
    any index whose record attains the greatest locus is at or after it. *)
Theorem max_first_greatest (li : list Variant) (n : nat) :
  (0 < n)%nat →
  (max li n < n)%nat
  ∧ (∀ i, (i < n)%nat → Variant.gt (li !!! i) (li !!! max li n) = false)
  ∧ (∀ i, (i < n)%nat →
        (∀ j, (j < n)%nat → Variant.gt (li !!! j) (li !!! i) = false) →
        (max li n ≤ i)%nat).
Proof.
  intros Hn. rewrite max_scanned.
  destruct (scanned_invariant li (n - 1)) as (Hle & Hmax & Hfirst).
  repeat split; [lia | intros i Hi; apply Hmax; lia |].
  intros i Hi Hgreatest.
  destruct (decide (scanned li (n - 1) ≤ i)%nat) as [|Hlt]; [done|].
  apply Nat.nle_gt, Hfirst in Hlt.
  rewrite Hgreatest in Hlt; [done | lia].
Qed.

(** ** The allele matcher and the result sink *)

Lemma fold_sticky_false {A} (P : A → bool) (l : list A) (b : bool) :
  fold_left (λ acc i, if negb (P i) then false else acc) l b = b && forallb P l.
Proof.
  revert b. induction l as [|x l IH]; intros b; simpl.
  - by rewrite andb_true_r.
  - rewrite IH. destruct (P x), b; simpl; try done.
Qed.

Lemma all_match_iff li n :
  all_match li n = true
  ↔ ∀ i, (1 ≤ i < n)%nat → Variant.alleles_eq (li !!! i) (li !!! 0%nat) = true.
Proof.
  unfold all_match. rewrite fold_sticky_false. simpl.
  rewrite forallb_forall. split.
  - intros H i Hi. apply H, in_seq. lia.
  - intros H i Hi%in_seq. apply H. lia.
Qed.

Lemma check_match_flag li n log : fst (check_match li n log) = all_match li n.
Proof.
  unfold check_match. destruct (all_match li n); [|done].
  destruct (fold_left _ _ _) as [log' []]; done.
Qed.

(** C6: the full-match test answers true exactly when every record at an
    index from 1 on satisfies [alleles_eq] against record 0.  Records are
    compared with the reference only: there is a frontier that passes the
    test although two of its other records are not allele compatible with
    each other. *)
Theorem check_match_reference_only :
  (∀ (li : list Variant) (n : nat) (log : Log),
     fst (check_match li n log) = true
     ↔ ∀ i, (1 ≤ i < n)%nat →
         Variant.alleles_eq (li !!! i) (li !!! 0%nat) = true)
  ∧ (∀ log : Log,
       fst (check_match blind_reference 3 log) = true
       ∧ Variant.alleles_eq (blind_reference !!! 1%nat) (blind_reference !!! 2%nat)
         = false).
Proof.
  split.
  - intros li n log. rewrite check_match_flag. apply all_match_iff.
  - intros log. rewrite check_match_flag. split; vm_compute; reflexivity.
Qed.

Lemma find_snoc {A} (f : A → bool) (l : list A) (x : A) :
  List.find f (l ++ [x])
  = match List.find f l with
    | Some y => Some y
    | None => if f x then Some x else None
    end.
Proof. induction l as [|y l IH]; simpl; [done|]. by destruct (f y). Qed.

Lemma log_members_spec li log k :
  (k ≤ length (names_lists log))%nat →
  let '(logk, wrote) := fold_left (log_member li) (seq 0 k) (log, false) in
  n_files logk = n_files log
  ∧ mismatches_bim logk = mismatches_bim log
  ∧ length (names_lists logk) = length (names_lists log)
  ∧ (∀ i, names_lists logk !!! i
          = if decide (i < k)%nat
            then names_lists log !!! i +:+ name (li !!! i) +:+ endl
            else names_lists log !!! i)
  ∧ match List.find (λ i, both_known (li !!! i)) (seq 0 k) with
    | Some i => wrote = true
                ∧ matches_bim logk = write_bim_line (li !!! i) (matches_bim log)
    | None => wrote = false ∧ matches_bim logk = matches_bim log
    end.
Proof.
  induction k as [|k IH]; intros Hk.
  - simpl. repeat split; try done.
  - rewrite seq_S, fold_left_app, find_snoc. simpl.
    destruct (fold_left (log_member li) (seq 0 k) (log, false)) as [logk wrote].
    destruct IH as (Hn & Hmis & Hlen & Hnames & Hfind); [lia|].
    assert (∀ i, <[k := names_lists logk !!! k +:+ name (li !!! k) +:+ endl]>
                   (names_lists logk) !!! i
                 = if decide (i < S k)%nat
                   then names_lists log !!! i +:+ name (li !!! i) +:+ endl
                   else names_lists log !!! i) as Hnames'.
    { intros i. destruct (decide (i = k)) as [->|Hne].
      - rewrite list_lookup_total_insert_eq by lia.
        rewrite Hnames. repeat case_decide; (done || lia).
      - rewrite list_lookup_total_insert_ne by done.
        rewrite Hnames. repeat case_decide; (done || lia). }
    unfold log_member.
    destruct (List.find (λ i, both_known (li !!! i)) (seq 0 k)) as [i0|].
    + destruct Hfind as [-> Hm]. simpl.
      repeat split; try done. by rewrite length_insert.
    + destruct Hfind as [-> Hm]. simpl. unfold both_known.
      destruct (Variant.not_sentinel (a1 (li !!! k))
                && Variant.not_sentinel (a2 (li !!! k))) eqn:Hknown; simpl.
      * repeat split; try done; [by rewrite length_insert | by rewrite Hm].
      * repeat split; try done. by rewrite length_insert.
Qed.

(** What [check_match] leaves in the log, whatever it answers. *)
Lemma check_match_log li n log :
  (n ≤ length (names_lists log))%nat →
  let '(matched, log') := check_match li n log in
  if matched then
    n_files log' = n_files log
    ∧ mismatches_bim log' = mismatches_bim log
    ∧ length (names_lists log') = length (names_lists log)
    ∧ (∀ i, names_lists log' !!! i
            = if decide (i < n)%nat
              then names_lists log !!! i +:+ name (li !!! i) +:+ endl
              else names_lists log !!! i)
    ∧ matches_bim log' = matches_bim log +:+ bim_line (representative li n)
  else log' = log.
Proof.
  intros Hn. unfold check_match. destruct (all_match li n); [|done].
  pose proof (log_members_spec li log n Hn) as H.
  destruct (fold_left (log_member li) (seq 0 n) (log, false)) as [logn wrote].
  destruct H as (Hnf & Hmis & Hlen & Hnames & Hfind).
  unfold representative.
  destruct (List.find (λ i, both_known (li !!! i)) (seq 0 n)) as [i0|];
    destruct Hfind as [-> Hm]; simpl; repeat split; try done.
  by rewrite Hm.
Qed.

(** C7: on a full match the identifier of record [i] is appended, as one
    line, to the name list of stream [i] for every index [i] of the
    frontier, every other name list is left alone, and the matched-records
    output grows by exactly one line: the representative record (the first
    in index order whose two alleles are both known, record 0 when there
    is none) in the six-field layout with [0] as the distance field. *)
Theorem check_match_writes_group
    (li : list Variant) (n : nat) (log log' : Log) :
  (n ≤ length (names_lists log))%nat →
  check_match li n log = (true, log') →
  (∀ i, (i < n)%nat →
        names_lists log' !!! i
        = names_lists log !!! i +:+ name (li !!! i) +:+ endl)
  ∧ (∀ i, (n ≤ i)%nat → names_lists log' !!! i = names_lists log !!! i)
  ∧ length (names_lists log') = length (names_lists log)
  ∧ matches_bim log'
    = matches_bim log
      +:+ show_uint (chrom (representative li n)) +:+ tab
      +:+ name (representative li n) +:+ tab
      +:+ "0" +:+ tab
      +:+ show_uint (position (representative li n)) +:+ tab
      +:+ a1 (representative li n) +:+ tab
      +:+ a2 (representative li n) +:+ endl
  ∧ mismatches_bim log' = mismatches_bim log.
Proof.
  intros Hn Hcm. pose proof (check_match_log li n log Hn) as H.
  rewrite Hcm in H. destruct H as (_ & Hmis & Hlen & Hnames & Hm).
  repeat split; try done.
  - intros i Hi. rewrite Hnames. by case_decide.
  - intros i Hi. rewrite Hnames. case_decide; [lia | done].
Qed.

(** ** The line reader *)

Lemma read_variant_file file v : (read_variant file v).1.1 = (getline file).1.
Proof. unfold read_variant. destruct (getline file) as [f l]. by destruct (String.eqb l ""). Qed.

Lemma read_variant_empty file v :
  (getline file).2 = "" → read_variant file v = ((getline file).1, v, false).
Proof. unfold read_variant. destruct (getline file) as [f l]. simpl. by intros ->. Qed.

(** A stream with nothing left to read, or not good any more, yields the
    empty line. *)
Lemma getline_at_end file : buf file = "" → (getline file).2 = "".
Proof. unfold getline. intros ->. by destruct (good file). Qed.

Lemma getline_not_good file : good file = false → (getline file).2 = "".
Proof. unfold getline. by intros ->. Qed.

(** ** Advancing the cursors *)

Lemma insert_pair_lookup (fs : list istream) (cs : list Variant) k i f v :
  (k < length fs)%nat → (k < length cs)%nat →
  (<[k := f]> fs !!! i, <[k := v]> cs !!! i)
  = if decide (i = k) then (f, v) else (fs !!! i, cs !!! i).
Proof.
  intros Hf Hc. case_decide as Hi.
  - subst i. by rewrite !list_lookup_total_insert_eq.
  - by rewrite !list_lookup_total_insert_ne.
Qed.

Lemma read_variants_upto fs cs k :
  length fs = length cs → (k ≤ length fs)%nat →
  let '(fk, ck) := fold_left read_at (seq 0 k) (fs, cs) in
  length fk = length fs ∧ length ck = length cs
  ∧ ∀ i, (fk !!! i, ck !!! i)
         = if decide (i < k)%nat
           then if negb (eof (fs !!! i))
                then advanced (fs !!! i) (cs !!! i)
                else (fs !!! i, cs !!! i)
           else (fs !!! i, cs !!! i).
Proof.
  intros Hlen. induction k as [|k IH]; intros Hk.
  - simpl. repeat split; try done.
  - rewrite seq_S, fold_left_app. simpl.
    destruct (fold_left read_at (seq 0 k) (fs, cs)) as [fk ck].
    destruct IH as (Hfk & Hck & Hpt); [lia|].
    pose proof (Hpt k) as Hkk. rewrite decide_False in Hkk by lia.
    injection Hkk as Hfk_k Hck_k.
    unfold read_at. rewrite Hfk_k, Hck_k.
    destruct (negb (eof (fs !!! k))) eqn:Heof.
    + unfold advanced in *.
      destruct (read_variant (fs !!! k) (cs !!! k)) as [[f v] b] eqn:Hrv.
      rewrite !length_insert. repeat split; try done.
      intros i. rewrite insert_pair_lookup by lia. rewrite Hpt.
      repeat case_decide; try lia; subst; try done.
      by rewrite Heof, Hrv.
    + repeat split; try done.
      intros i. rewrite Hpt.
      repeat case_decide; try lia; try done.
      assert (i = k) as -> by lia. by rewrite Heof.
Qed.

Lemma read_variants_until_max_upto fs cs m k :
  length fs = length cs → (k ≤ length fs)%nat →
  let '(fk, ck) := fold_left (read_until_max_at m) (seq 0 k) (fs, cs) in
  length fk = length fs ∧ length ck = length cs
  ∧ ∀ i, (fk !!! i, ck !!! i)
         = if decide (i < k)%nat
           then if Variant.lt (cs !!! i) (cs !!! m) && negb (eof (fs !!! i))
                then advanced (fs !!! i) (cs !!! i)
                else (fs !!! i, cs !!! i)
           else (fs !!! i, cs !!! i).
Proof.
  intros Hlen. induction k as [|k IH]; intros Hk.
  - simpl. repeat split; try done.
  - rewrite seq_S, fold_left_app. simpl.
    destruct (fold_left (read_until_max_at m) (seq 0 k) (fs, cs)) as [fk ck].
    destruct IH as (Hfk & Hck & Hpt); [lia|].
    pose proof (Hpt k) as Hkk. rewrite decide_False in Hkk by lia.
    injection Hkk as Hfk_k Hck_k.
    (* the record [max] refers to has not been overwritten *)
    assert (ck !!! m = cs !!! m) as Hmax.
    { pose proof (Hpt m) as Hm. rewrite lt_irrefl in Hm. simpl in Hm.
      case_decide; by injection Hm. }
    unfold read_until_max_at. rewrite Hfk_k, Hck_k, Hmax.
    destruct (Variant.lt (cs !!! k) (cs !!! m) && negb (eof (fs !!! k))) eqn:Hadv.
    + unfold advanced in *.
      destruct (read_variant (fs !!! k) (cs !!! k)) as [[f v] b] eqn:Hrv.
      rewrite !length_insert. repeat split; try done.
      intros i. rewrite insert_pair_lookup by lia. rewrite Hpt.
      repeat case_decide; try lia; subst; try done.
      by rewrite Hadv, Hrv.
    + repeat split; try done.
      intros i. rewrite Hpt.
      repeat case_decide; try lia; try done.
      assert (i = k) as -> by lia. by rewrite Hadv.
Qed.

(** [read_variants], stream by stream. *)
Lemma read_variants_pointwise fs cs n i :
  length fs = n → length cs = n →
  ((read_variants fs cs n).1 !!! i, (read_variants fs cs n).2 !!! i)
  = if negb (eof (fs !!! i)) && bool_decide (i < n)%nat
    then advanced (fs !!! i) (cs !!! i)
    else (fs !!! i, cs !!! i).
Proof.
  intros Hf Hc. unfold read_variants.
  pose proof (read_variants_upto fs cs n) as H.
  destruct (fold_left read_at (seq 0 n) (fs, cs)) as [fk ck].
  destruct H as (_ & _ & Hpt); [congruence | lia |].
  rewrite Hpt.
  destruct (decide (i < n)%nat);
    [rewrite bool_decide_eq_true_2 by done | rewrite bool_decide_eq_false_2 by done];
    by rewrite ?andb_true_r, ?andb_false_r.
Qed.

(** [read_variants_until_max], stream by stream. *)
Lemma read_variants_until_max_pointwise fs cs m n i :
  length fs = n → length cs = n →
  ((read_variants_until_max fs cs m n).1 !!! i,
   (read_variants_until_max fs cs m n).2 !!! i)
  = if Variant.lt (cs !!! i) (cs !!! m) && negb (eof (fs !!! i))
       && bool_decide (i < n)%nat
    then advanced (fs !!! i) (cs !!! i)
    else (fs !!! i, cs !!! i).
Proof.
  intros Hf Hc. unfold read_variants_until_max.
  pose proof (read_variants_until_max_upto fs cs m n) as H.
  destruct (fold_left (read_until_max_at m) (seq 0 n) (fs, cs)) as [fk ck].
  destruct H as (_ & _ & Hpt); [congruence | lia |].
  rewrite Hpt.
  destruct (decide (i < n)%nat);
    [rewrite bool_decide_eq_true_2 by done | rewrite bool_decide_eq_false_2 by done];
    by rewrite ?andb_true_r, ?andb_false_r.
Qed.

Lemma read_variants_length fs cs n :
  length fs = n → length cs = n →
  length (read_variants fs cs n).1 = n ∧ length (read_variants fs cs n).2 = n.
Proof.
  intros Hf Hc. unfold read_variants.
  pose proof (read_variants_upto fs cs n) as H.
  destruct (fold_left read_at (seq 0 n) (fs, cs)) as [fk ck].
  destruct H as (? & ? & _); [congruence | lia |]. simpl. split; congruence.
Qed.

Lemma read_variants_until_max_length fs cs m n :
  length fs = n → length cs = n →
  length (read_variants_until_max fs cs m n).1 = n
  ∧ length (read_variants_until_max fs cs m n).2 = n.
Proof.
  intros Hf Hc. unfold read_variants_until_max.
  pose proof (read_variants_until_max_upto fs cs m n) as H.
  destruct (fold_left (read_until_max_at m) (seq 0 n) (fs, cs)) as [fk ck].
  destruct H as (? & ? & _); [congruence | lia |]. simpl. split; congruence.
Qed.

(** ** One round of the merge *)

Lemma loop_body_mismatch n st :
  fst (check_match (cur st) n (log st)) = false →
  loop_body n st
  = {| files := (read_variants_until_max (files st) (cur st) (max (cur st) n) n).1;
       cur := (read_variants_until_max (files st) (cur st) (max (cur st) n) n).2;
       log := log st |}.
Proof.
  unfold loop_body. intros H.
  pose proof (check_match_flag (cur st) n (log st)) as Hflag.
  unfold check_match in *. destruct (all_match (cur st) n).
  - destruct (fold_left _ _ _) as [l []]; simpl in H; done.
  - simpl. by destruct (read_variants_until_max _ _ _ _).
Qed.

Lemma loop_body_match n st log' :
  check_match (cur st) n (log st) = (true, log') →
  loop_body n st
  = {| files := (read_variants (files st) (cur st) n).1;
       cur := (read_variants (files st) (cur st) n).2;
       log := log' |}.
Proof.
  unfold loop_body. intros ->. simpl. by destruct (read_variants _ _ _).
Qed.

(** C1: in a round whose frontier is not a full match, a stream is
    advanced by one record exactly when its current record is strictly
    below the selected maximum and its file is not at its end; a stream
    that is not below the maximum, like one whose file is at its end,
    keeps its stream position and its current record. *)
Theorem laggards_advance (n : nat) (st : State) (i : nat) :
  length (files st) = n → length (cur st) = n → (i < n)%nat →
  fst (check_match (cur st) n (log st)) = false →
  let greatest := cur st !!! max (cur st) n in
  let st' := loop_body n st in
  (Variant.lt (cur st !!! i) greatest = true → eof (files st !!! i) = false →
     (files st' !!! i, cur st' !!! i)
     = (read_variant (files st !!! i) (cur st !!! i)).1)
  ∧ (Variant.lt (cur st !!! i) greatest = true → eof (files st !!! i) = true →
       files st' !!! i = files st !!! i ∧ cur st' !!! i = cur st !!! i)
  ∧ (Variant.lt (cur st !!! i) greatest = false →
       files st' !!! i = files st !!! i ∧ cur st' !!! i = cur st !!! i).
Proof.
  intros Hf Hc Hi Hmis. simpl. rewrite (loop_body_mismatch _ _ Hmis). simpl.
  pose proof (read_variants_until_max_pointwise
                (files st) (cur st) (max (cur st) n) n i Hf Hc) as Hpt.
  rewrite bool_decide_eq_true_2, andb_true_r in Hpt by done.
  unfold advanced in Hpt.
  split; [|split].
  - intros Hlt Heof. by rewrite Hlt, Heof in Hpt.
  - intros Hlt Heof. rewrite Hlt, Heof in Hpt. simpl in Hpt. by injection Hpt.
  - intros Hlt. rewrite Hlt in Hpt. simpl in Hpt. by injection Hpt.
Qed.

(** C10: when the line read from the file is empty, [read_variant]
    answers false and hands the record back as it was; a file with nothing
    left to read yields the empty line, so reading all streams leaves the
    cursor of such a stream, like that of a stream already at its end, on
    the record it had. *)
Theorem read_variant_end_of_stream :
  (∀ (file : istream) (v : Variant),
     (getline file).2 = "" →
     (read_variant file v).2 = false ∧ (read_variant file v).1.2 = v)
  ∧ (∀ file : istream, buf file = "" ∨ eof file = true → (getline file).2 = "")
  ∧ (∀ (fs : list istream) (cs : list Variant) (n i : nat),
       length fs = n → length cs = n →
       buf (fs !!! i) = "" ∨ eof (fs !!! i) = true →
       (read_variants fs cs n).2 !!! i = cs !!! i).
Proof.
  split; [|split].
  - intros file v H. by rewrite (read_variant_empty _ _ H).
  - intros file [H|H]; [by apply getline_at_end|].
    apply getline_not_good. unfold good, eof in *. by rewrite H.
  - intros fs cs n i Hf Hc Hend.
    pose proof (read_variants_pointwise fs cs n i Hf Hc) as Hpt.
    destruct (negb (eof (fs !!! i)) && bool_decide (i < n)%nat) eqn:Hadv.
    + apply andb_true_iff in Hadv as [Heof%negb_true_iff _].
      destruct Hend as [Hbuf|]; [|congruence].
      unfold advanced in Hpt.
      rewrite (read_variant_empty _ _ (getline_at_end _ Hbuf)) in Hpt.
      simpl in Hpt. congruence.
    + congruence.
Qed.

(** ** Mismatches *)

Lemma check_match_mismatches li n log :
  mismatches_bim (check_match li n log).2 = mismatches_bim log.
Proof.
  unfold check_match. destruct (all_match li n); [|done].
  assert (∀ l st, mismatches_bim (fold_left (log_member li) l st).1
                  = mismatches_bim st.1) as Hfold.
  { induction l as [|i l IH]; intros [lg w]; [done|]. simpl. rewrite IH.
    destruct (negb w && _ && _); done. }
  specialize (Hfold (seq 0 n) (log, false)).
  destruct (fold_left _ _ _) as [lg []]; simpl in *; done.
Qed.

Lemma loop_body_mismatches n st :
  mismatches_bim (log (loop_body n st)) = mismatches_bim (log st).
Proof.
  unfold loop_body.
  pose proof (check_match_mismatches (cur st) n (log st)) as H.
  destruct (check_match _ _ _) as [[] lg]; simpl in *.
  - by destruct (read_variants _ _ _).
  - by destruct (read_variants_until_max _ _ _ _).
Qed.

Lemma main_loop_mismatches n fuel st steps st' :
  main_loop n fuel st = Some (steps, st') →
  mismatches_bim (log st') = mismatches_bim (log st).
Proof.
  revert st steps. induction fuel as [|fuel IH]; intros st steps; simpl.
  - destruct (any_eof _ _); congruence.
  - destruct (any_eof _ _); [congruence|].
    destruct (main_loop n fuel (loop_body n st)) as [[k s]|] eqn:Hrun; [|done].
    intros [= <- <-]. rewrite (IH _ _ Hrun). apply loop_body_mismatches.
Qed.

Lemma Log_open_empty env n lg err :
  Log_open env n = (Some lg, err) →
  lg = {| n_files := n; names_lists := replicate n "";
          matches_bim := ""; mismatches_bim := "" |}.
Proof.
  unfold Log_open. destruct (List.find _ _); [done|].
  repeat (destruct (negb _); [done|]). congruence.
Qed.

Lemma initial_state_log env fs lg : log (initial_state env fs lg) = lg.
Proof. unfold initial_state. by destruct (read_variants _ _ _). Qed.

(** C8: a frontier that is not a full match leaves the whole log as it
    was (no name list, no matched record, no mismatch record); no round of
    the merge, matching or not, writes to the mismatch output, and that
    output is empty at the end of every run. *)
Theorem mismatch_writes_nothing :
  (∀ (li : list Variant) (n : nat) (lg lg' : Log),
     check_match li n lg = (false, lg') → lg' = lg)
  ∧ (∀ (n : nat) (st : State),
       mismatches_bim (log (loop_body n st)) = mismatches_bim (log st))
  ∧ (∀ (env : Env) (args : list string) (fuel : nat) (e : Exit) (lg : Log),
       main env args fuel = Some e → outputs e = Some lg →
       mismatches_bim lg = "").
Proof.
  split; [|split].
  - intros li n lg lg'. unfold check_match. destruct (all_match li n).
    + destruct (fold_left _ _ _) as [l []]; simpl; congruence.
    + congruence.
  - apply loop_body_mismatches.
  - intros env args fuel e lg. unfold main.
    destruct (Log_open env _) as [[opened|] err] eqn:Hopen; [|by intros [= <-]].
    apply Log_open_empty in Hopen.
    destruct (_ <=? 2)%nat; [intros [= <-] [= <-]; by subst|].
    destruct (open_files env args "") as [[fs|] out]; [|intros [= <-] [= <-]; by subst].
    destruct (main_loop _ _ _) as [[k s]|] eqn:Hrun; [|done].
    intros [= <-] [= <-]. rewrite (main_loop_mismatches _ _ _ _ _ Hrun).
    rewrite initial_state_log. by subst.
Qed.

(** ** A mismatch at one shared locus *)

Lemma same_loci_iff cs n :
  same_loci cs n = true
  ↔ ∀ i, (i < n)%nat → Variant.eq (cs !!! i) (cs !!! 0%nat) = true.
Proof.
  unfold same_loci. rewrite forallb_forall. split.
  - intros H i Hi. apply H, in_seq. lia.
  - intros H i Hi%in_seq. apply H. lia.
Qed.

Lemma eq_eq_not_lt a b c :
  Variant.eq a c = true → Variant.eq b c = true → Variant.lt a b = false.
Proof. locus_cases. Qed.

Lemma no_laggard_hold fs cs m l :
  (∀ i, In i l → Variant.lt (cs !!! i) (cs !!! m) = false) →
  fold_left (read_until_max_at m) l (fs, cs) = (fs, cs).
Proof.
  induction l as [|i l IH]; intros H; [done|]. simpl.
  rewrite (H i) by by left. simpl. apply IH. intros j Hj. apply H. by right.
Qed.

Lemma max_lt li n : (0 < n)%nat → (max li n < n)%nat.
Proof.
  intros Hn. destruct (scanned_invariant li (n - 1)) as (Hle & _).
  rewrite max_scanned. lia.
Qed.

Lemma max_greatest li n i :
  (i < n)%nat → Variant.gt (li !!! i) (li !!! max li n) = false.
Proof.
  intros Hi. destruct (scanned_invariant li (n - 1)) as (_ & Hmax & _).
  rewrite max_scanned. apply Hmax. lia.
Qed.

(** On such a frontier the round changes nothing at all. *)
Lemma tie_mismatch_fixed n st : tie_mismatch n st = true → loop_body n st = st.
Proof.
  unfold tie_mismatch. intros [Hmis%negb_true_iff Hsame]%andb_true_iff.
  rewrite loop_body_mismatch by by rewrite check_match_flag.
  destruct n as [|n]; [done|].
  unfold read_variants_until_max. rewrite no_laggard_hold; [by destruct st|].
  intros i Hi%in_seq. rewrite same_loci_iff in Hsame.
  eapply eq_eq_not_lt; apply Hsame; [lia|]. apply max_lt. lia.
Qed.

Lemma fixed_never_ends n st fuel :
  any_eof (files st) n = false → loop_body n st = st →
  main_loop n fuel st = None.
Proof.
  intros Heof Hfix. induction fuel as [|fuel IH]; simpl; rewrite Heof; [done|].
  by rewrite Hfix, IH.
Qed.

(** ** Termination of the merge *)

Lemma read_line_newlines s :
  match read_line s with
  | (_, Some r) => count_newlines s = S (count_newlines r)
  | (_, None) => True
  end.
Proof.
  induction s as [|c s IH]; simpl; [done|].
  destruct (Ascii.eqb c newline); [done|].
  by destruct (read_line s) as [l [r|]].
Qed.

Lemma getline_progress f :
  sound f → eofbit f = false →
  (reads_left (getline f).1 < reads_left f)%nat.
Proof.
  intros Hs Heof. unfold getline, good, reads_left.
  destruct (failbit f) eqn:Hfail; [rewrite Hs in Heof; done|].
  rewrite Heof. simpl.
  pose proof (read_line_newlines (buf f)) as H.
  destruct (read_line (buf f)) as [l [r|]]; simpl; lia.
Qed.

Lemma getline_sound f : sound f → sound (getline f).1.
Proof.
  unfold getline, good, sound. intros Hs.
  destruct (eofbit f) eqn:Heof; simpl; [done|].
  destruct (failbit f) eqn:Hfail; simpl; [by apply Hs|].
  by destruct (read_line (buf f)) as [l [r|]].
Qed.

Lemma file_lines_getline content :
  content ≠ "" →
  file_lines content
  = (getline (open_stream content)).2
    :: file_lines (buf (getline (open_stream content)).1).
Proof.
  unfold getline. simpl.
  induction content as [|c s IH]; [done|]. intros _. simpl.
  destruct (Ascii.eqb c newline); [done|].
  destruct s as [|c' s']; [done|].
  rewrite IH by done.
  by destruct (read_line (String c' s')) as [l [r|]].
Qed.

Lemma count_newlines_lines s : (count_newlines s ≤ length (file_lines s))%nat.
Proof.
  induction s as [|c s IH]; simpl; [done|].
  destruct (Ascii.eqb c newline); simpl; [lia|].
  destruct (file_lines s); simpl in *; lia.
Qed.

Lemma record_count_lines s :
  one_record_per_line s → record_count s = length (file_lines s).
Proof.
  unfold one_record_per_line, record_count. intros H.
  induction H as [|l ls Hl _ IH]; [done|].
  rewrite filter_cons_True by done. simpl. by rewrite IH.
Qed.

(** After its first line is read, a fresh stream has at most one read left
    per record of a file in the input format. *)
Lemma first_read_left content :
  one_record_per_line content →
  (reads_left (getline (open_stream content)).1 ≤ record_count content)%nat.
Proof.
  intros H. rewrite (record_count_lines _ H).
  pose proof (count_newlines_lines content) as Hc.
  pose proof (read_line_newlines content) as Hr.
  unfold getline, reads_left. simpl.
  destruct (read_line content) as [l [r|]]; simpl; lia.
Qed.

Section pointwise_sums.
Context {A B : Type} `{!Inhabited A, !Inhabited B}.
Variables (g : A → nat) (h : B → nat).

Lemma sum_pointwise_le (la : list A) (lb : list B) :
  length la = length lb →
  (∀ i, (i < length la)%nat → (g (la !!! i) ≤ h (lb !!! i))%nat) →
  (sum_list_with g la ≤ sum_list_with h lb)%nat.
Proof.
  revert lb. induction la as [|a la IH]; intros [|b lb] Hlen Hle; try done.
  simpl in *. pose proof (Hle 0%nat ltac:(lia)) as H0. simpl in H0.
  assert (sum_list_with g la ≤ sum_list_with h lb)%nat; [|lia].
  apply IH; [lia|]. intros i Hi. apply (Hle (S i)). lia.
Qed.

Lemma sum_pointwise_lt (la : list A) (lb : list B) (j : nat) :
  length la = length lb →
  (∀ i, (i < length la)%nat → (g (la !!! i) ≤ h (lb !!! i))%nat) →
  (j < length la)%nat → (g (la !!! j) < h (lb !!! j))%nat →
  (sum_list_with g la < sum_list_with h lb)%nat.
Proof.
  revert lb j. induction la as [|a la IH]; intros [|b lb] j Hlen Hle Hj Hlt;
    simpl in *; try lia.
  pose proof (Hle 0%nat ltac:(lia)) as H0. simpl in H0.
  assert (∀ i, (i < length la)%nat → (g (la !!! i) ≤ h (lb !!! i))%nat) as Htl.
  { intros i Hi. apply (Hle (S i)). lia. }
  destruct j as [|j].
  - simpl in Hlt.
    assert (sum_list_with g la ≤ sum_list_with h lb)%nat; [|lia].
    apply sum_pointwise_le; [lia | done].
  - assert (sum_list_with g la < sum_list_with h lb)%nat; [|lia].
    apply (IH lb j); [lia | done | lia | done].
Qed.
End pointwise_sums.

Lemma any_eof_false fs n :
  any_eof fs n = false ↔ ∀ i, (i < n)%nat → eof (fs !!! i) = false.
Proof.
  unfold any_eof. split.
  - intros H i Hi. destruct (eof (fs !!! i)) eqn:He; [|done].
    rewrite <- H. symmetry. apply existsb_exists. exists i.
    split; [apply in_seq; lia | done].
  - intros H. apply not_true_iff_false. intros (i & Hi%in_seq & He)%existsb_exists.
    rewrite H in He; [done | lia].
Qed.

Lemma advanced_file f v : (advanced f v).1 = (getline f).1.
Proof. apply read_variant_file. Qed.

(** The files after a round, stream by stream: read once or held. *)
Lemma loop_body_files n st i :
  length (files st) = n → length (cur st) = n →
  files (loop_body n st) !!! i = (getline (files st !!! i)).1
  ∨ files (loop_body n st) !!! i = files st !!! i.
Proof.
  intros Hf Hc.
  destruct (check_match (cur st) n (log st)) as [[] lg'] eqn:Hcm.
  - rewrite (loop_body_match _ _ _ Hcm). simpl.
    pose proof (read_variants_pointwise _ _ _ i Hf Hc) as Hpt.
    destruct (_ && _); apply (f_equal fst) in Hpt; simpl in Hpt;
      rewrite Hpt, ?advanced_file; auto.
  - rewrite loop_body_mismatch by by rewrite Hcm. simpl.
    pose proof (read_variants_until_max_pointwise _ _ (max (cur st) n) _ i Hf Hc) as Hpt.
    destruct (_ && _); apply (f_equal fst) in Hpt; simpl in Hpt;
      rewrite Hpt, ?advanced_file; auto.
Qed.

Lemma loop_body_invariant n st :
  merge_invariant n st → merge_invariant n (loop_body n st).
Proof.
  intros (Hf & Hc & Hs). split; [|split].
  - destruct (check_match (cur st) n (log st)) as [[] lg'] eqn:Hcm.
    + rewrite (loop_body_match _ _ _ Hcm). by apply read_variants_length.
    + rewrite loop_body_mismatch by by rewrite Hcm.
      by apply read_variants_until_max_length.
  - destruct (check_match (cur st) n (log st)) as [[] lg'] eqn:Hcm.
    + rewrite (loop_body_match _ _ _ Hcm). by apply read_variants_length.
    + rewrite loop_body_mismatch by by rewrite Hcm.
      by apply read_variants_until_max_length.
  - intros i Hi. destruct (loop_body_files n st i Hf Hc) as [-> | ->].
    + apply getline_sound. by apply Hs.
    + by apply Hs.
Qed.

Lemma forallb_false_inv {A} (f : A → bool) (l : list A) :
  forallb f l = false → ∃ x, In x l ∧ f x = false.
Proof.
  induction l as [|x l IH]; simpl; [done|].
  destruct (f x) eqn:Hx; simpl.
  - intros (y & Hy & Hfy)%IH. exists y. auto.
  - intros _. exists x. auto.
Qed.

(** In a frontier that is not all at one locus some record is strictly
    below the selected maximum. *)
Lemma laggard_exists cs n :
  (0 < n)%nat → same_loci cs n = false →
  ∃ i, (i < n)%nat ∧ Variant.lt (cs !!! i) (cs !!! max cs n) = true.
Proof.
  intros Hn Hsame.
  assert (∃ i, (i < n)%nat ∧ Variant.eq (cs !!! i) (cs !!! 0%nat) = false)
    as (i & Hi & Hne).
  { unfold same_loci in Hsame.
    destruct (forallb_false_inv _ _ Hsame) as (i & Hin%in_seq & Hne).
    exists i. split; [lia | done]. }
  pose proof (max_greatest cs n i Hi) as Hgi.
  pose proof (max_greatest cs n 0%nat Hn) as Hg0.
  destruct (Variant.eq (cs !!! 0%nat) (cs !!! max cs n)) eqn:H0.
  - exists i. split; [done|]. revert Hne Hgi H0. clear. locus_cases.
  - exists 0%nat. split; [done|]. by apply locus_total.
Qed.

Lemma reads_left_open f : eofbit f = false → (0 < reads_left f)%nat.
Proof. unfold reads_left. intros ->. lia. Qed.

(** Away from the one-locus mismatch every round reads at least one line. *)
Lemma loop_body_progress n st :
  (0 < n)%nat → merge_invariant n st →
  any_eof (files st) n = false → tie_mismatch n st = false →
  (total_reads_left (files (loop_body n st)) < total_reads_left (files st))%nat.
Proof.
  intros Hn (Hf & Hc & Hs) Heof Htie.
  destruct (loop_body_invariant n st) as (Hf' & _); [done|].
  rewrite any_eof_false in Heof.
  assert (∀ i, (i < n)%nat →
            (reads_left (getline (files st !!! i)).1 < reads_left (files st !!! i))%nat)
    as Hread.
  { intros i Hi. apply getline_progress; [by apply Hs | by apply Heof]. }
  assert (∃ j, (j < n)%nat
               ∧ files (loop_body n st) !!! j = (getline (files st !!! j)).1)
    as (j & Hj & Hadv).
  { destruct (check_match (cur st) n (log st)) as [[] lg'] eqn:Hcm.
    - exists 0%nat. split; [done|]. rewrite (loop_body_match _ _ _ Hcm). simpl.
      pose proof (read_variants_pointwise _ _ _ 0%nat Hf Hc) as Hpt.
      rewrite (Heof 0%nat Hn), bool_decide_eq_true_2 in Hpt by done.
      apply (f_equal fst) in Hpt. simpl in Hpt. by rewrite Hpt, advanced_file.
    - assert (all_match (cur st) n = false) as Hall
        by by rewrite <- check_match_flag with (log := log st), Hcm.
      unfold tie_mismatch in Htie. rewrite Hall in Htie. simpl in Htie.
      destruct (laggard_exists _ _ Hn Htie) as (j & Hj & Hlt).
      exists j. split; [done|].
      rewrite loop_body_mismatch by by rewrite Hcm. simpl.
      pose proof (read_variants_until_max_pointwise
                    _ _ (max (cur st) n) _ j Hf Hc) as Hpt.
      rewrite Hlt, (Heof j Hj), bool_decide_eq_true_2 in Hpt by done.
      apply (f_equal fst) in Hpt. simpl in Hpt. by rewrite Hpt, advanced_file. }
  unfold total_reads_left.
  apply (sum_pointwise_lt _ _ _ _ j); [congruence | | congruence |].
  - intros i Hi. rewrite Hf' in Hi.
    destruct (loop_body_files n st i Hf Hc) as [-> | ->]; [|done].
    by apply Nat.lt_le_incl, Hread.
  - rewrite Hadv. by apply Hread.
Qed.

Lemma open_reads_left fs n :
  (0 < n)%nat → length fs = n → any_eof fs n = false →
  (0 < total_reads_left fs)%nat.
Proof.
  intros Hn Hlen Heof. rewrite any_eof_false in Heof.
  destruct fs as [|f fs]; simpl in *; [lia|].
  pose proof (reads_left_open f (Heof 0%nat Hn)). unfold total_reads_left. simpl. lia.
Qed.

(** As many rounds as there are reads left are enough to leave the loop,
    as long as no round meets a mismatch at one shared locus. *)
Lemma main_loop_terminates n fuel st :
  (0 < n)%nat → merge_invariant n st →
  (total_reads_left (files st) ≤ fuel)%nat →
  (∀ j, (j < fuel)%nat →
        any_eof (files (Nat.iter j (loop_body n) st)) n = false →
        tie_mismatch n (Nat.iter j (loop_body n) st) = false) →
  ∃ steps st', main_loop n fuel st = Some (steps, st') ∧ (steps ≤ fuel)%nat.
Proof.
  intros Hn. revert st. induction fuel as [|fuel IH]; intros st Hinv Hle Htie; simpl.
  - destruct (any_eof (files st) n) eqn:Heof; [by eauto|].
    destruct Hinv as (Hf & _).
    pose proof (open_reads_left _ _ Hn Hf Heof). lia.
  - destruct (any_eof (files st) n) eqn:Heof; [exists 0%nat, st; split; [done | lia]|].
    destruct (IH (loop_body n st)) as (steps & st' & -> & Hsteps).
    + by apply loop_body_invariant.
    + pose proof (loop_body_progress n st Hn Hinv Heof (Htie 0%nat ltac:(lia) Heof)).
      lia.
    + intros j Hj. rewrite <- Nat.iter_succ_r. apply Htie. lia.
    + exists (S steps), st'. split; [done | lia].
Qed.

Lemma initial_state_files env fs lg :
  files (initial_state env fs lg)
  = (read_variants fs (uninitialised env <$> seq 0 (length fs)) (length fs)).1.
Proof. unfold initial_state. by destruct (read_variants _ _ _). Qed.

Lemma initial_state_cur env fs lg :
  cur (initial_state env fs lg)
  = (read_variants fs (uninitialised env <$> seq 0 (length fs)) (length fs)).2.
Proof. unfold initial_state. by destruct (read_variants _ _ _). Qed.

Lemma uninitialised_length env n : length (uninitialised env <$> seq 0 n) = n.
Proof. by rewrite length_fmap, length_seq. Qed.

(** Every opened stream has been read once when the loop is entered. *)
Lemma initial_state_first_read env contents lg i :
  (i < length contents)%nat →
  files (initial_state env (open_stream <$> contents) lg) !!! i
  = (getline (open_stream (contents !!! i))).1.
Proof.
  intros Hi. rewrite initial_state_files.
  set (fs := open_stream <$> contents).
  assert (length fs = length contents) as Hlen by apply length_fmap.
  pose proof (read_variants_pointwise fs
                (uninitialised env <$> seq 0 (length fs)) (length fs) i
                eq_refl (uninitialised_length env _)) as Hpt.
  assert (fs !!! i = open_stream (contents !!! i)) as Hfi
    by by apply list_lookup_total_fmap.
  rewrite Hfi in Hpt. simpl in Hpt.
  rewrite bool_decide_eq_true_2 in Hpt by lia.
  apply (f_equal fst) in Hpt. simpl in Hpt.
  by rewrite Hpt, advanced_file.
Qed.

Lemma initial_state_invariant env contents lg :
  merge_invariant (length contents)
    (initial_state env (open_stream <$> contents) lg).
Proof.
  assert (length (open_stream <$> contents) = length contents) as Hlen
    by apply length_fmap.
  split; [|split].
  - rewrite initial_state_files, Hlen.
    apply read_variants_length; [done | apply uninitialised_length].
  - rewrite initial_state_cur, Hlen.
    apply read_variants_length; [done | apply uninitialised_length].
  - intros i Hi. rewrite initial_state_first_read by done.
    apply getline_sound. by intros [=].
Qed.

Lemma initial_reads_left env contents lg :
  Forall one_record_per_line contents →
  (total_reads_left (files (initial_state env (open_stream <$> contents) lg))
   ≤ sum_list_with record_count contents)%nat.
Proof.
  intros Hfmt. destruct (initial_state_invariant env contents lg) as (Hf & _).
  apply sum_pointwise_le; [done|]. intros i Hi. rewrite Hf in Hi.
  rewrite initial_state_first_read by done.
  apply first_read_left. by apply Forall_lookup_total_1.
Qed.

(** After its first line is read, a fresh stream has at most one read left
    per line of its file. *)
Lemma first_read_left_lines content :
  (reads_left (getline (open_stream content)).1 ≤ line_count content)%nat.
Proof.
  pose proof (count_newlines_lines content) as Hc.
  pose proof (read_line_newlines content) as Hr.
  unfold getline, reads_left, line_count. simpl.
  destruct (read_line content) as [l [r|]]; simpl; lia.
Qed.

Lemma initial_reads_left_lines env contents lg :
  (total_reads_left (files (initial_state env (open_stream <$> contents) lg))
   ≤ sum_list_with line_count contents)%nat.
Proof.
  destruct (initial_state_invariant env contents lg) as (Hf & _).
  apply sum_pointwise_le; [done|]. intros i Hi. rewrite Hf in Hi.
  rewrite initial_state_first_read by done. apply first_read_left_lines.
Qed.

Lemma record_count_sum contents :
  Forall one_record_per_line contents →
  sum_list_with line_count contents = sum_list_with record_count contents.
Proof.
  induction 1 as [|c cs Hc _ IH]; [done|]. simpl.
  unfold line_count at 1. by rewrite <- (record_count_lines c Hc), IH.
Qed.

(** C4, as the program has it: for every set of at least one input stream
    the loop of the merge driver is left after at most as many rounds as
    the files hold lines in total, empty lines included, provided no round
    meets the edge case of a frontier that mismatches while all its records
    share one locus; when every line of every file holds a record, that
    bound is the total number of records. *)
Theorem merge_terminates_in_lines
    (env : Env) (contents : list string) (lg : Log) :
  let n := length contents in
  let st0 := initial_state env (open_stream <$> contents) lg in
  let bound := sum_list_with line_count contents in
  (0 < n)%nat →
  (∀ j, (j < bound)%nat →
        any_eof (files (Nat.iter j (loop_body n) st0)) n = false →
        tie_mismatch n (Nat.iter j (loop_body n) st0) = false) →
  (∃ steps st',
     main_loop n bound st0 = Some (steps, st') ∧ (steps ≤ bound)%nat)
  ∧ (Forall one_record_per_line contents →
     bound = sum_list_with record_count contents).
Proof.
  intros n st0 bound Hn Htie. split; [|apply record_count_sum].
  apply main_loop_terminates; [done | apply initial_state_invariant | | done].
  apply initial_reads_left_lines.
Qed.

(** ** Starting the program *)

Lemma find_unwritable env l :
  match List.find (λ i, negb (can_write env (names_filename i))) l with
  | Some i => In (names_filename i) (names_filename <$> l)
              ∧ can_write env (names_filename i) = false
  | None => forallb (can_write env) (names_filename <$> l) = true
  end.
Proof.
  induction l as [|i l IH]; simpl; [done|].
  destruct (can_write env (names_filename i)) eqn:Hw; simpl.
  - destruct (List.find _ l); [|done]. destruct IH. auto.
  - auto.
Qed.

Lemma Log_open_cases env n :
  if outputs_writable env n
  then Log_open env n = (Some (empty_log n), "")
  else ∃ f, In f (output_files n) ∧ can_write env f = false
            ∧ Log_open env n = (None, could_not_write f).
Proof.
  unfold outputs_writable, output_files, Log_open.
  rewrite forallb_app. simpl.
  pose proof (find_unwritable env (seq 0 n)) as Hfind.
  destruct (List.find _ (seq 0 n)) as [i|].
  - destruct Hfind as [Hin Hw].
    assert (forallb (can_write env) (names_filename <$> seq 0 n) = false) as ->.
    { apply not_true_iff_false. rewrite forallb_forall. intros H.
      specialize (H _ Hin). congruence. }
    simpl. exists (names_filename i). repeat split; [|done].
    apply in_or_app. by left.
  - rewrite Hfind. simpl.
    destruct (can_write env "bij_matches.bim") eqn:Hm; simpl.
    + destruct (can_write env "bij_mismatches.bim") eqn:Hmm; simpl; [done|].
      exists "bij_mismatches.bim". repeat split; [|done].
      apply in_or_app. right. simpl. auto.
    + exists "bij_matches.bim". repeat split; [|done].
      apply in_or_app. right. simpl. auto.
Qed.

(** C9, as the program has it: with fewer than two input files the run
    ends with status 1 before any input file is opened or read and before
    anything is written to an output; the usage text is printed when all
    the output files could be opened, and when one could not, that file is
    reported instead and no usage is printed. *)
Theorem too_few_files (env : Env) (args : list string) (fuel : nat) :
  (length args < 2)%nat →
  ∃ e, main env args fuel = Some e
       ∧ status e = 1
       ∧ merged e = None
       ∧ (∀ lg, outputs e = Some lg → lg = empty_log (length args))
       ∧ if outputs_writable env (length args)
         then cout e = usage ∧ cerr e = ""
         else cout e = ""
              ∧ ∃ f, In f (output_files (length args))
                     ∧ can_write env f = false
                     ∧ cerr e = could_not_write f.
Proof.
  intros Hargs. unfold main.
  replace (S (length args) - 1)%nat with (length args) by lia.
  pose proof (Log_open_cases env (length args)) as Hopen.
  destruct (outputs_writable env (length args)).
  - rewrite Hopen.
    assert ((S (length args) <=? 2)%nat = true) as -> by (apply Nat.leb_le; lia).
    eexists. split; [done|]. simpl. repeat split; try done. by intros lg [= <-].
  - destruct Hopen as (f & Hin & Hw & ->).
    eexists. split; [done|]. simpl. repeat split; try done. eauto.
Qed.

(** C9 as stated fails: started with one input file where its outputs
    cannot be opened, the program exits with status 1 and prints nothing
    on standard output, not the usage text. *)
Lemma usage_not_printed :
  (length ["f1.bim"] < 2)%nat
  ∧ ∃ e, main read_only_directory ["f1.bim"] 0 = Some e
         ∧ status e = 1
         ∧ cout e = ""
         ∧ cout e ≠ usage
         ∧ cerr e = could_not_write "bij_names_1.txt".
Proof.
  split; [simpl; lia|]. eexists. split; [vm_compute; reflexivity|].
  simpl. repeat split; try done.
Qed.

Lemma main_reaches_loop env args fuel lg err fs out :
  (2 ≤ length args)%nat →
  Log_open env (length args) = (Some lg, err) →
  open_files env args "" = (Some fs, out) →
  main env args fuel
  = match main_loop (length args) fuel (initial_state env fs lg) with
    | None => None
    | Some (_, st) =>
        Some {| status := 0; cout := out; cerr := "";
                outputs := Some (log st); merged := Some st |}
    end.
Proof.
  intros Hargs Hopen Hfiles. unfold main.
  replace (S (length args) - 1)%nat with (length args) by lia.
  rewrite Hopen.
  assert ((S (length args) <=? 2)%nat = false) as -> by (apply Nat.leb_gt; lia).
  by rewrite Hfiles.
Qed.

(** ** The scenarios of the specification *)

(** C3 fails on the program: in scenario C both files are at locus
    (1, 100) with alleles A/G against C/T.  No file is at its end, the
    frontier fails the full-match test with all loci equal, and the round
    leaves the state exactly as it was: no stream is advanced and nothing
    is recorded, so the loop is never left, whatever number of rounds is
    allowed. *)
Theorem tie_mismatch_never_ends :
  any_eof (files scenario_C_entry) 2 = false
  ∧ fst (check_match (cur scenario_C_entry) 2 (log scenario_C_entry)) = false
  ∧ same_loci (cur scenario_C_entry) 2 = true
  ∧ loop_body 2 scenario_C_entry = scenario_C_entry
  ∧ ∀ fuel, main scenario_C ["f1.bim"; "f2.bim"] fuel = None.
Proof.
  assert (any_eof (files scenario_C_entry) 2 = false) as Heof
    by (vm_compute; reflexivity).
  assert (loop_body 2 scenario_C_entry = scenario_C_entry) as Hfix
    by (apply tie_mismatch_fixed; vm_compute; reflexivity).
  repeat split; try done; try (vm_compute; reflexivity).
  intros fuel.
  rewrite (main_reaches_loop scenario_C ["f1.bim"; "f2.bim"] fuel (empty_log 2) ""
             (open_stream <$> [bim ["1 rs1 0 100 A G"]; bim ["1 rs1b 0 100 C T"]])
             ("Opening: f1.bim" +:+ endl +:+ "Opening: f2.bim" +:+ endl));
    [| simpl; lia | vm_compute; reflexivity | vm_compute; reflexivity].
  change (main_loop (length ["f1.bim"; "f2.bim"]) fuel _)
    with (main_loop 2 fuel scenario_C_entry).
  by rewrite (fixed_never_ends 2 scenario_C_entry fuel Heof Hfix).
Qed.

(** Scenario D, first round: file 1 lags at position 100 behind file 2 at
    position 200; it alone is advanced. *)
Lemma laggards_advance_witness :
  (length (files scenario_D_entry) = 2%nat
   ∧ length (cur scenario_D_entry) = 2%nat
   ∧ fst (check_match (cur scenario_D_entry) 2 (log scenario_D_entry)) = false)
  ∧ (files (loop_body 2 scenario_D_entry) !!! 0%nat,
     cur (loop_body 2 scenario_D_entry) !!! 0%nat)
    = (read_variant (files scenario_D_entry !!! 0%nat)
                    (cur scenario_D_entry !!! 0%nat)).1
  ∧ files (loop_body 2 scenario_D_entry) !!! 1%nat = files scenario_D_entry !!! 1%nat
  ∧ cur (loop_body 2 scenario_D_entry) !!! 1%nat = cur scenario_D_entry !!! 1%nat.
Proof.
  assert (length (files scenario_D_entry) = 2%nat) as Hf by (vm_compute; reflexivity).
  assert (length (cur scenario_D_entry) = 2%nat) as Hc by (vm_compute; reflexivity).
  assert (fst (check_match (cur scenario_D_entry) 2 (log scenario_D_entry)) = false)
    as Hmis by (vm_compute; reflexivity).
  split; [done|].
  destruct (laggards_advance 2 scenario_D_entry 0 Hf Hc ltac:(lia) Hmis)
    as (Hadv & _ & _).
  destruct (laggards_advance 2 scenario_D_entry 1 Hf Hc ltac:(lia) Hmis)
    as (_ & _ & Hheld).
  split; [apply Hadv; vm_compute; reflexivity|].
  apply Hheld. vm_compute. reflexivity.
Defined.

(** The file of one record and two empty lines against a file of one
    record: four lines, left within four rounds. *)
Lemma merge_terminates_in_lines_witness :
  (∃ steps st',
     main_loop 2 4 blank_tail_entry = Some (steps, st') ∧ (steps ≤ 4)%nat)
  ∧ (Forall one_record_per_line blank_tail_files →
     4%nat = sum_list_with record_count blank_tail_files).
Proof.
  apply (merge_terminates_in_lines blank_tail blank_tail_files (empty_log 2)).
  - simpl. lia.
  - intros j Hj. vm_compute in Hj.
    destruct j as [|[|[|[|j]]]]; [vm_compute; congruence.. | lia].
Defined.

(** C4 as stated fails: these two files hold two records, no round meets a
    frontier that mismatches at one shared locus, and yet two rounds do not
    leave the loop; it takes three, one for each line of the first file
    that is read after the first. *)
Lemma blank_lines_cost_rounds :
  sum_list_with record_count blank_tail_files = 2%nat
  ∧ tie_mismatch 2 blank_tail_entry = false
  ∧ tie_mismatch 2 (Nat.iter 1 (loop_body 2) blank_tail_entry) = false
  ∧ tie_mismatch 2 (Nat.iter 2 (loop_body 2) blank_tail_entry) = false
  ∧ main_loop 2 2 blank_tail_entry = None
  ∧ main_loop 2 3 blank_tail_entry
    = Some (3%nat, Nat.iter 3 (loop_body 2) blank_tail_entry).
Proof. repeat split; vm_compute; reflexivity. Qed.

Lemma max_first_greatest_witness :
  (0 < 3)%nat
  ∧ (max tied_frontier 3 < 3)%nat
  ∧ (∀ i, (i < 3)%nat →
        Variant.gt (tied_frontier !!! i) (tied_frontier !!! max tied_frontier 3)
        = false)
  ∧ (∀ i, (i < 3)%nat →
        (∀ j, (j < 3)%nat →
              Variant.gt (tied_frontier !!! j) (tied_frontier !!! i) = false) →
        (max tied_frontier 3 ≤ i)%nat).
Proof. split; [lia|]. apply (max_first_greatest tied_frontier 3). lia. Defined.

(** Scenario B: both names are listed and the record of file 2, the first
    without a sentinel allele, is the one written. *)
Lemma check_match_writes_group_witness :
  check_match scenario_B_frontier 2 (empty_log 2) = (true, scenario_B_log)
  ∧ names_lists scenario_B_log !!! 1%nat
    = names_lists (empty_log 2) !!! 1%nat
      +:+ name (scenario_B_frontier !!! 1%nat) +:+ endl
  ∧ representative scenario_B_frontier 2 = scenario_B_frontier !!! 1%nat.
Proof.
  assert (check_match scenario_B_frontier 2 (empty_log 2) = (true, scenario_B_log))
    as Hcm by (vm_compute; reflexivity).
  split; [done|].
  destruct (check_match_writes_group scenario_B_frontier 2 (empty_log 2)
              scenario_B_log ltac:(simpl; lia) Hcm) as (Hnames & _).
  split; [apply Hnames; lia | vm_compute; reflexivity].
Defined.

(** Started with a single input file in a writable directory, the program
    prints the usage text and exits with status 1. *)
Lemma too_few_files_witness :
  (length ["f1.bim"] < 2)%nat
  ∧ ∃ e, main scenario_A ["f1.bim"] 0 = Some e
         ∧ status e = 1
         ∧ merged e = None
         ∧ (∀ lg, outputs e = Some lg → lg = empty_log 1)
         ∧ cout e = usage ∧ cerr e = "".
Proof.
  split; [simpl; lia|].
  exact (too_few_files scenario_A ["f1.bim"] 0 ltac:(simpl; lia)).
Defined.

(** Scenario A: one match at locus (1, 100). *)
Example scenario_A_run :
  ∃ e st, main scenario_A ["f1.bim"; "f2.bim"] 1 = Some e
          ∧ status e = 0 ∧ merged e = Some st
          ∧ names_lists (log st) = ["rs1" +:+ endl; "rs1b" +:+ endl]
          ∧ matches_bim (log st)
            = bim_line {| chrom := 1; name := "rs1"; position := 100;
                          a1 := "A"; a2 := "G" |}.
Proof. do 2 eexists. split; [vm_compute; reflexivity|]. by vm_compute. Qed.

(** Scenario B: the sentinel allele of file 1 does not prevent the match,
    and the record of file 2 is the representative. *)
Example scenario_B_run :
  ∃ e st, main scenario_B ["f1.bim"; "f2.bim"] 1 = Some e
          ∧ merged e = Some st
          ∧ log st = scenario_B_log.
Proof. do 2 eexists. split; [vm_compute; reflexivity|]. by vm_compute. Qed.

(** Scenario D: file 1 catches up in the first round, the second round
    matches [rs2] with [rs2b]. *)
Example scenario_D_run :
  ∃ e st, main scenario_D ["f1.bim"; "f2.bim"] 2 = Some e
          ∧ merged e = Some st
          ∧ names_lists (log st) = ["rs2" +:+ endl; "rs2b" +:+ endl]
          ∧ main scenario_D ["f1.bim"; "f2.bim"] 1 = None.
Proof. do 2 eexists. split; [vm_compute; reflexivity|]. by vm_compute. Qed.

(** Scenario E: file 2 ends after the first locus, the last two records of
    file 1 are never read. *)
Example scenario_E_run :
  ∃ e st,
    main (two_files (bim ["1 rs1 0 100 A G"; "1 rs2 0 200 A T"; "1 rs3 0 300 C T"])
                    (bim ["1 rs1b 0 100 A G"]))
         ["f1.bim"; "f2.bim"] 1 = Some e
    ∧ merged e = Some st
    ∧ names_lists (log st) = ["rs1" +:+ endl; "rs1b" +:+ endl]
    ∧ file_lines (buf (files st !!! 0%nat)) = ["1 rs3 0 300 C T"].
Proof. do 2 eexists. split; [vm_compute; reflexivity|]. by vm_compute. Qed.

(** * Further properties of the code *)

(** ** The comparison operators *)

(** X1: [operator<] is a strict total order on loci: it is irreflexive and
    transitive, of two records exactly one of [<], [==], [>] holds,
    [operator>] is [operator<] with its arguments swapped, and [operator!=]
    holds exactly when one record is strictly below the other. *)
Theorem locus_strict_total_order :
  (∀ a, Variant.lt a a = false)
  ∧ (∀ a b c, Variant.lt a b = true → Variant.lt b c = true →
              Variant.lt a c = true)
  ∧ (∀ a b,
       (Variant.lt a b = true ∧ Variant.eq a b = false ∧ Variant.gt a b = false)
       ∨ (Variant.lt a b = false ∧ Variant.eq a b = true ∧ Variant.gt a b = false)
       ∨ (Variant.lt a b = false ∧ Variant.eq a b = false ∧ Variant.gt a b = true))
  ∧ (∀ a b, Variant.gt a b = Variant.lt b a)
  ∧ (∀ a b, Variant.ne a b = Variant.lt a b || Variant.lt b a).
Proof.
  split; [|split; [|split; [|split]]].
  - intros a. locus_cases.
  - intros a b c. locus_cases.
  - intros a b. locus_cases; intuition lia.
  - intros a b. locus_cases.
  - intros a b. unfold Variant.ne. locus_cases.
Qed.

(** ** Allele compatibility as a relation *)

Lemma alleles_comm a b : Variant.alleles a b = Variant.alleles b a.
Proof.
  apply set_eq. intros x. unfold Variant.alleles.
  rewrite !elem_of_insert_allele. tauto.
Qed.

Lemma size_pair (x y : string) : (size ({[x]} ∪ {[y]} : gset string) ≤ 2)%nat.
Proof.
  rewrite size_union_alt, size_singleton.
  assert (size (({[y]} : gset string) ∖ {[x]}) ≤ 1)%nat; [|lia].
  rewrite <- (size_singleton (C := gset string) y).
  apply subseteq_size. apply subseteq_difference_l. done.
Qed.

Lemma size_alleles_self a : (size (Variant.alleles a a) ≤ 2)%nat.
Proof.
  etrans; [|apply (size_pair (a1 a) (a2 a))].
  apply subseteq_size. intros x. unfold Variant.alleles.
  rewrite !elem_of_insert_allele, elem_of_union, !elem_of_singleton, elem_of_empty.
  tauto.
Qed.

(** X2: [alleles_eq] is symmetric, holds between every record and itself
    whatever its alleles, and never holds between records at different
    loci. *)
Theorem alleles_eq_symmetric_reflexive :
  (∀ a b, Variant.alleles_eq a b = Variant.alleles_eq b a)
  ∧ (∀ a, Variant.alleles_eq a a = true)
  ∧ (∀ a b, Variant.eq a b = false → Variant.alleles_eq a b = false).
Proof.
  split; [|split].
  - intros a b. unfold Variant.alleles_eq. by rewrite alleles_comm, eq_sym.
  - intros a. unfold Variant.alleles_eq.
    rewrite bool_decide_eq_true_2 by apply size_alleles_self.
    rewrite andb_true_r. locus_cases.
  - intros a b H. unfold Variant.alleles_eq. by rewrite H.
Qed.

(** ** A matching round *)

(** X9: in a round whose frontier is a full match every stream that is not
    at its end is advanced by one record, a stream at its end keeps its
    position and its record, and the log is the one [check_match] left. *)
Theorem match_advances_all (n : nat) (st : State) (lg' : Log) (i : nat) :
  length (files st) = n → length (cur st) = n → (i < n)%nat →
  check_match (cur st) n (log st) = (true, lg') →
  let st' := loop_body n st in
  log st' = lg'
  ∧ (eof (files st !!! i) = false →
       (files st' !!! i, cur st' !!! i)
       = (read_variant (files st !!! i) (cur st !!! i)).1)
  ∧ (eof (files st !!! i) = true →
       files st' !!! i = files st !!! i ∧ cur st' !!! i = cur st !!! i).
Proof.
  intros Hf Hc Hi Hcm. simpl. rewrite (loop_body_match _ _ _ Hcm). simpl.
  pose proof (read_variants_pointwise (files st) (cur st) n i Hf Hc) as Hpt.
  rewrite bool_decide_eq_true_2, andb_true_r in Hpt by done.
  unfold advanced in Hpt.
  split; [done|]. split.
  - intros Heof. by rewrite Heof in Hpt.
  - intros Heof. rewrite Heof in Hpt. simpl in Hpt. by injection Hpt.
Qed.

Lemma scanned_first li k :
  (∀ i, (i ≤ k)%nat → Variant.gt (li !!! i) (li !!! 0%nat) = false) →
  scanned li k = 0%nat.
Proof.
  induction k as [|k IH]; intros H; [done|].
  rewrite scanned_S, IH by (intros i Hi; apply H; lia).
  by rewrite H.
Qed.

Lemma eq_not_gt a b : Variant.eq a b = true → Variant.gt a b = false.
Proof. locus_cases. Qed.

(** X15: a frontier that passes the full-match test is all at one locus:
    every record, and so the representative that is written, is at the
    locus of record 0, and the maximum selection picks index 0. *)
Theorem match_shares_locus (li : list Variant) (n : nat) (lg : Log) :
  fst (check_match li n lg) = true →
  (∀ i, (i < n)%nat → Variant.eq (li !!! i) (li !!! 0%nat) = true)
  ∧ Variant.eq (representative li n) (li !!! 0%nat) = true
  ∧ max li n = 0%nat.
Proof.
  rewrite check_match_flag, all_match_iff. intros Hall.
  assert (∀ i, (i < n)%nat → Variant.eq (li !!! i) (li !!! 0%nat) = true) as Hloc.
  { intros i Hi. destruct i as [|i]; [locus_cases|].
    specialize (Hall (S i) ltac:(lia)).
    unfold Variant.alleles_eq in Hall. by apply andb_true_iff in Hall as [? _]. }
  split; [done|]. split.
  - unfold representative.
    destruct (List.find _ _) as [i|] eqn:Hfind; [|locus_cases].
    apply find_some in Hfind as [Hin%in_seq _]. apply Hloc. lia.
  - rewrite max_scanned. apply scanned_first.
    intros i Hi. destruct n as [|n]; simpl in Hi.
    + assert (i = 0%nat) as -> by lia. apply gt_irrefl.
    + apply eq_not_gt, Hloc. lia.
Qed.

(** ** The loop as a whole *)

Lemma main_loop_exit n fuel st steps st' :
  main_loop n fuel st = Some (steps, st') →
  st' = Nat.iter steps (loop_body n) st
  ∧ any_eof (files st') n = true
  ∧ (∀ j, (j < steps)%nat →
          any_eof (files (Nat.iter j (loop_body n) st)) n = false)
  ∧ (steps ≤ fuel)%nat.
Proof.
  revert st steps. induction fuel as [|fuel IH]; intros st steps; simpl.
  - destruct (any_eof (files st) n) eqn:Heof; [|done].
    intros [= <- <-]. repeat split; [done | intros j Hj; lia | lia].
  - destruct (any_eof (files st) n) eqn:Heof.
    + intros [= <- <-]. repeat split; [done | intros j Hj; lia | lia].
    + destruct (main_loop n fuel (loop_body n st)) as [[k s]|] eqn:Hrun; [|done].
      intros [= <- <-]. destruct (IH _ _ Hrun) as (-> & Hend & Hbefore & Hk).
      repeat split.
      * by rewrite Nat.iter_succ_r.
      * done.
      * intros [|j] Hj; [done|]. rewrite Nat.iter_succ_r. apply Hbefore. lia.
      * lia.
Qed.

Lemma main_loop_more_fuel n fuel fuel' st steps st' :
  main_loop n fuel st = Some (steps, st') → (steps ≤ fuel')%nat →
  main_loop n fuel' st = Some (steps, st').
Proof.
  revert fuel' st steps. induction fuel as [|fuel IH]; intros fuel' st steps; simpl.
  - destruct (any_eof (files st) n) eqn:Heof; [|done].
    intros [= <- <-] _. destruct fuel'; simpl; by rewrite Heof.
  - destruct (any_eof (files st) n) eqn:Heof.
    + intros [= <- <-] _. destruct fuel'; simpl; by rewrite Heof.
    + destruct (main_loop n fuel (loop_body n st)) as [[k s]|] eqn:Hrun; [|done].
      intros [= <- <-] Hle. destruct fuel' as [|fuel']; [lia|]. simpl.
      rewrite Heof. by rewrite (IH fuel' _ _ Hrun) by lia.
Qed.

(** X10: when the loop is left, it is left in the first state, counted in
    rounds from the start, in which some stream is at its end: the final
    state is the start state after that many rounds, no earlier state had a
    stream at its end, and any allowance of at least that many rounds gives
    the same result. *)
Theorem main_loop_first_eof (n fuel : nat) (st : State) (steps : nat) (st' : State) :
  main_loop n fuel st = Some (steps, st') →
  st' = Nat.iter steps (loop_body n) st
  ∧ any_eof (files st') n = true
  ∧ (∀ j, (j < steps)%nat →
          any_eof (files (Nat.iter j (loop_body n) st)) n = false)
  ∧ (∀ fuel', (steps ≤ fuel')%nat → main_loop n fuel' st = Some (steps, st')).
Proof.
  intros Hrun. destruct (main_loop_exit _ _ _ _ _ Hrun) as (H1 & H2 & H3 & _).
  repeat split; try done. intros fuel' Hle. by eapply main_loop_more_fuel.
Qed.

(** ** Reading lines *)

Lemma append_cons c (s t : string) : String c s +:+ t = String c (s +:+ t).
Proof. reflexivity. Qed.

Lemma append_nil_l (s : string) : "" +:+ s = s.
Proof. reflexivity. Qed.

Lemma append_nil_r (s : string) : s +:+ "" = s.
Proof. induction s as [|c s IH]; [done | by rewrite append_cons, IH]. Qed.

Lemma append_assoc (s t u : string) : (s +:+ t) +:+ u = s +:+ t +:+ u.
Proof. induction s as [|c s IH]; [done | by rewrite !append_cons, IH]. Qed.

(** What [read_line] returns is the text up to the first line feed. *)
Lemma read_line_split s :
  match read_line s with
  | (l, Some r) => s = l +:+ String newline r ∧ no_newline l = true
  | (l, None) => s = l ∧ no_newline l = true
  end.
Proof.
  induction s as [|c s IH]; simpl; [done|].
  destruct (Ascii.eqb_spec c newline) as [->|Hc]; [done|].
  destruct (read_line s) as [l [r|]]; destruct IH as [-> Hl];
    rewrite ?append_cons; simpl;
    (split; [done|]); rewrite Hl; by destruct (Ascii.eqb_spec c newline).
Qed.

Lemma read_line_joined line rest :
  no_newline line = true →
  read_line (line +:+ String newline rest) = (line, Some rest).
Proof.
  induction line as [|c l IH]; rewrite ?append_nil_l, ?append_cons; simpl.
  - intros _. by rewrite ?Ascii.eqb_refl.
  - intros [Hc Hl]%andb_true_iff. apply negb_true_iff in Hc.
    by rewrite Hc, IH.
Qed.

Lemma read_line_last line :
  no_newline line = true → read_line line = (line, None).
Proof.
  induction line as [|c l IH]; simpl; [done|].
  intros [Hc Hl]%andb_true_iff. apply negb_true_iff in Hc.
  by rewrite Hc, IH.
Qed.

Lemma getline_endl_round_trip_eq line rest :
  no_newline line = true →
  getline (open_stream (line +:+ endl +:+ rest)) = (open_stream rest, line)
  ∧ getline (open_stream line)
    = ({| buf := ""; eofbit := true; failbit := String.eqb line "" |}, line).
Proof.
  intros Hl. unfold getline, endl. simpl.
  rewrite append_cons, append_nil_l.
  by rewrite read_line_joined, read_line_last.
Qed.

(** X3: [getline] undoes [<< line << std::endl]: from a fresh stream over
    a line without line feed, a line feed and more text it returns the
    line and leaves the stream, still good, at that further text; when the
    line is the last of the text and no line feed follows it, the line is
    still returned and the eof bit is set, with the fail bit only for the
    empty line. *)
Theorem getline_endl_round_trip (line rest : string) :
  no_newline line = true →
  getline (open_stream (line +:+ endl +:+ rest)) = (open_stream rest, line)
  ∧ getline (open_stream line)
    = ({| buf := ""; eofbit := true; failbit := String.eqb line "" |}, line).
Proof.
  apply getline_endl_round_trip_eq.
Qed.

Lemma suffix_of_refl s : suffix_of s s.
Proof. by exists "". Qed.

Lemma suffix_of_trans s t u : suffix_of s t → suffix_of t u → suffix_of s u.
Proof. intros [p ->] [q ->]. exists (q +:+ p). by rewrite append_assoc. Qed.

Lemma suffix_of_nil s : suffix_of "" s.
Proof. exists s. by rewrite append_nil_r. Qed.

Lemma getline_suffix f : suffix_of (buf (getline f).1) (buf f).
Proof.
  unfold getline. destruct (good f); [|apply suffix_of_refl].
  pose proof (read_line_split (buf f)) as H.
  destruct (read_line (buf f)) as [l [r|]]; simpl.
  - destruct H as [-> _]. exists (l +:+ String newline "").
    by rewrite append_assoc.
  - apply suffix_of_nil.
Qed.

Lemma getline_eof_sticky f : eofbit f = true → eofbit (getline f).1 = true.
Proof. unfold getline, good. by intros ->. Qed.

Lemma loop_body_lengths n st :
  length (files st) = n → length (cur st) = n →
  length (files (loop_body n st)) = n ∧ length (cur (loop_body n st)) = n.
Proof.
  intros Hf Hc.
  destruct (check_match (cur st) n (log st)) as [[] lg'] eqn:Hcm.
  - rewrite (loop_body_match _ _ _ Hcm). by apply read_variants_length.
  - rewrite loop_body_mismatch by by rewrite Hcm.
    by apply read_variants_until_max_length.
Qed.

Lemma iter_lengths n st j :
  length (files st) = n → length (cur st) = n →
  length (files (Nat.iter j (loop_body n) st)) = n
  ∧ length (cur (Nat.iter j (loop_body n) st)) = n.
Proof.
  intros Hf Hc. induction j as [|j [IHf IHc]]; [done|].
  simpl. by apply loop_body_lengths.
Qed.

(** X8: streams only move forward.  After any number of rounds the text a
    stream still has to read is a tail of the text it had to read before,
    and a stream that was at its end is still at its end. *)
Theorem streams_only_advance (n : nat) (st : State) (j i : nat) :
  length (files st) = n → length (cur st) = n →
  suffix_of (buf (files (Nat.iter j (loop_body n) st) !!! i)) (buf (files st !!! i))
  ∧ (eof (files st !!! i) = true →
     eof (files (Nat.iter j (loop_body n) st) !!! i) = true).
Proof.
  intros Hf Hc. induction j as [|j [IHs IHe]].
  - split; [apply suffix_of_refl | done].
  - simpl. destruct (iter_lengths n st j Hf Hc) as [Hfj Hcj].
    destruct (loop_body_files n (Nat.iter j (loop_body n) st) i Hfj Hcj)
      as [-> | ->]; [|done].
    split.
    + eapply suffix_of_trans; [apply getline_suffix | done].
    + intros He. apply getline_eof_sticky. by apply IHe.
Qed.

(** ** Reading fields *)

Lemma sentry_bad ss :
  good ss = false → (sentry ss).2 = false ∧ good (sentry ss).1 = false.
Proof.
  unfold sentry. intros H. rewrite H. simpl. split; [done|].
  unfold good in *. simpl. by rewrite andb_false_r.
Qed.

Lemma ws_bad ss : good ss = false → good (ws ss) = false.
Proof.
  unfold ws. intros H. rewrite H. unfold good. simpl. by rewrite andb_false_r.
Qed.

Lemma extract_string_bad ss str :
  good ss = false →
  (extract_string ss str).2 = str ∧ good (extract_string ss str).1 = false.
Proof.
  intros H. unfold extract_string. destruct (sentry_bad ss H) as [Hok Hbad].
  destruct (sentry ss) as [ss1 ok]. simpl in *. by subst.
Qed.

Lemma extract_uint_bad ss u :
  good ss = false →
  (extract_uint ss u).2 = u ∧ good (extract_uint ss u).1 = false.
Proof.
  intros H. unfold extract_uint. destruct (sentry_bad ss H) as [Hok Hbad].
  destruct (sentry ss) as [ss1 ok]. simpl in *. by subst.
Qed.

(** Once an extraction has failed, the rest of the chain of [parse_line]
    writes nothing. *)
Lemma parse_line_after_failure ss c n p x y :
  good ss = false →
  (let ss := ws ss in
   let '(ss, name') := extract_string ss n in
   let ss := ws ss in
   let '(ss, cm) := extract_string ss "" in
   let ss := ws ss in
   let '(ss, position') := extract_uint ss p in
   let ss := ws ss in
   let '(ss, a1') := extract_string ss x in
   let ss := ws ss in
   let '(ss, a2') := extract_string ss y in
   {| chrom := c; name := name'; position := position'; a1 := a1'; a2 := a2' |})
  = {| chrom := c; name := n; position := p; a1 := x; a2 := y |}.
Proof.
  intros H0. simpl.
  pose proof (ws_bad _ H0) as H1.
  destruct (extract_string_bad (ws ss) n H1) as [E1 H2].
  destruct (extract_string (ws ss) n) as [s1 n']. simpl in *. subst n'.
  pose proof (ws_bad _ H2) as H3.
  destruct (extract_string_bad (ws s1) "" H3) as [_ H4].
  destruct (extract_string (ws s1) "") as [s2 cm]. simpl in *.
  pose proof (ws_bad _ H4) as H5.
  destruct (extract_uint_bad (ws s2) p H5) as [E3 H6].
  destruct (extract_uint (ws s2) p) as [s3 p']. simpl in *. subst p'.
  pose proof (ws_bad _ H6) as H7.
  destruct (extract_string_bad (ws s3) x H7) as [E4 H8].
  destruct (extract_string (ws s3) x) as [s4 x']. simpl in *. subst x'.
  pose proof (ws_bad _ H8) as H9.
  destruct (extract_string_bad (ws s4) y H9) as [E5 _].
  destruct (extract_string (ws s4) y) as [s5 y']. simpl in *. by subst y'.
Qed.

Lemma parse_line_unfold line v :
  parse_line line v
  = (let '(ss, chrom') := extract_uint (open_stream line) (chrom v) in
     let ss := ws ss in
     let '(ss, name') := extract_string ss (name v) in
     let ss := ws ss in
     let '(ss, cm) := extract_string ss "" in
     let ss := ws ss in
     let '(ss, position') := extract_uint ss (position v) in
     let ss := ws ss in
     let '(ss, a1') := extract_string ss (a1 v) in
     let ss := ws ss in
     let '(ss, a2') := extract_string ss (a2 v) in
     {| chrom := chrom'; name := name'; position := position';
        a1 := a1'; a2 := a2' |}).
Proof. reflexivity. Qed.

(** X6: a line that holds white space only is taken for a record:
    [read_variant] answers true, yet no field of the record is written. *)
Theorem blank_line_read_as_record (file : istream) (v : Variant) :
  (getline file).2 ≠ "" → skipws (getline file).2 = "" →
  read_variant file v = ((getline file).1, v, true).
Proof.
  intros Hne Hws. unfold read_variant.
  destruct (getline file) as [f line]. simpl in *.
  destruct (String.eqb_spec line ""); [done|]. f_equal. f_equal.
  rewrite parse_line_unfold.
  assert (extract_uint (open_stream line) (chrom v)
          = ({| buf := ""; eofbit := true; failbit := true |}, chrom v)) as ->.
  { unfold extract_uint, sentry. simpl. by rewrite Hws. }
  rewrite parse_line_after_failure by done. by destruct v.
Qed.

(** X7: a line whose first field does not start like a number (after
    leading white space comes a character that is neither a digit nor a
    sign) is taken for a record whose chromosome is 0; the failed
    extraction stops the chain, so the identifier, position and alleles
    of the previous record stay in place. *)
Theorem non_numeric_line_zeroes_chromosome
    (file : istream) (v : Variant) (c : ascii) (rest : string) :
  skipws (getline file).2 = String c rest →
  digit_of c = None → c ≠ "-"%char → c ≠ "+"%char →
  read_variant file v
  = ((getline file).1,
     {| chrom := 0; name := name v; position := position v;
        a1 := a1 v; a2 := a2 v |},
     true).
Proof.
  intros Hws Hd Hm Hp. unfold read_variant.
  destruct (getline file) as [f line]. simpl in *.
  destruct (String.eqb_spec line "") as [->|_]; [done|]. f_equal. f_equal.
  rewrite parse_line_unfold.
  assert (extract_uint (open_stream line) (chrom v)
          = ({| buf := String c rest; eofbit := false; failbit := true |}, 0)) as ->.
  { unfold extract_uint, sentry. simpl. rewrite Hws. simpl.
    destruct (Ascii.eqb_spec c "-"); [done|].
    destruct (Ascii.eqb_spec c "+"); [done|].
    simpl. by rewrite Hd. }
  by rewrite parse_line_after_failure.
Qed.

Lemma extract_uint_range ss u :
  (u ≤ UINT_MAX)%N → ((extract_uint ss u).2 ≤ UINT_MAX)%N.
Proof.
  intros Hu. unfold extract_uint.
  destruct (sentry ss) as [ss1 []]; [|done].
  destruct (read_sign (buf ss1)) as [negative s1].
  destruct (read_digits s1) as [ds r].
  destruct ds as [|d ds]; [done|].
  destruct (N.ltb_spec UINT_MAX (decimal_value (d :: ds))); simpl; [done|].
  destruct negative; [|done].
  pose proof (N.mod_lt (UINT_MAX + 1 - decimal_value (d :: ds)) (UINT_MAX + 1)).
  unfold UINT_MAX in *. lia.
Qed.

(** Every field of the parsed record comes out of one extraction into the
    field of the record passed in. *)
Lemma parse_line_fields line v :
  ∃ s1 s2 s3 s4 s5,
    chrom (parse_line line v) = (extract_uint s1 (chrom v)).2
    ∧ name (parse_line line v) = (extract_string s2 (name v)).2
    ∧ position (parse_line line v) = (extract_uint s3 (position v)).2
    ∧ a1 (parse_line line v) = (extract_string s4 (a1 v)).2
    ∧ a2 (parse_line line v) = (extract_string s5 (a2 v)).2.
Proof.
  rewrite parse_line_unfold. cbv zeta.
  exists (open_stream line).
  destruct (extract_uint (open_stream line) (chrom v)) as [s0 c'].
  exists (ws s0). destruct (extract_string (ws s0) (name v)) as [s1 n'].
  destruct (extract_string (ws s1) "") as [s2 cm].
  exists (ws s2). destruct (extract_uint (ws s2) (position v)) as [s3 p'].
  exists (ws s3). destruct (extract_string (ws s3) (a1 v)) as [s4 x'].
  exists (ws s4). destruct (extract_string (ws s4) (a2 v)) as [s5 y'].
  done.
Qed.

Lemma parse_line_range line v : in_range v → in_range (parse_line line v).
Proof.
  intros [Hc Hp].
  destruct (parse_line_fields line v) as (s1 & _ & s3 & _ & _ & Ec & _ & Ep & _).
  split; [rewrite Ec | rewrite Ep]; by apply extract_uint_range.
Qed.

(** A record whose numbers fit an [unsigned int] before a read has
    numbers that fit after it. *)
Lemma read_variant_in_range (file : istream) (v : Variant) :
  in_range v → in_range (read_variant file v).1.2.
Proof.
  intros Hv. unfold read_variant. destruct (getline file) as [f line].
  destruct (String.eqb line ""); simpl; [done|]. by apply parse_line_range.
Qed.

(** ** Writing a record and reading it back *)

Lemma skipws_head s : head_nonspace s = true → skipws s = s.
Proof. destruct s as [|c s]; simpl; [done|]. by intros ->%negb_true_iff. Qed.

Lemma head_nonspace_app s t : head_nonspace s = true → head_nonspace (s +:+ t) = true.
Proof. by destruct s. Qed.

Lemma word_head w : word w → head_nonspace w = true.
Proof.
  intros [Hne Hsp]. destruct w as [|c w]; [done|]. simpl in *.
  by apply andb_true_iff in Hsp as [? _].
Qed.

Lemma read_word_joined w c s :
  no_space w = true → isspace c = true →
  read_word (w +:+ String c s) = (w, Some (String c s)).
Proof.
  intros Hw Hc. induction w as [|c0 w IH]; rewrite ?append_nil_l, ?append_cons; simpl.
  - by rewrite Hc.
  - simpl in Hw. apply andb_true_iff in Hw as [Hc0%negb_true_iff Hw].
    by rewrite Hc0, IH.
Qed.

Lemma read_word_last w : no_space w = true → read_word w = (w, None).
Proof.
  induction w as [|c0 w IH]; simpl; [done|].
  intros [Hc0%negb_true_iff Hw]%andb_true_iff. by rewrite Hc0, IH.
Qed.

Lemma extract_string_word w c s str :
  word w → isspace c = true →
  extract_string (open_stream (w +:+ String c s)) str
  = (open_stream (String c s), w).
Proof.
  intros Hw Hc. unfold extract_string, sentry. simpl.
  rewrite skipws_head by by apply head_nonspace_app, word_head.
  destruct Hw as [Hne Hsp]. destruct w as [|c0 w]; [done|].
  rewrite append_cons. simpl buf. rewrite <- append_cons.
  by rewrite read_word_joined.
Qed.

Lemma extract_string_last w str :
  word w →
  extract_string (open_stream w) str
  = ({| buf := ""; eofbit := true; failbit := false |}, w).
Proof.
  intros Hw. unfold extract_string, sentry. simpl.
  rewrite skipws_head by by apply word_head.
  destruct Hw as [Hne Hsp]. destruct w as [|c0 w]; [done|].
  simpl buf. by rewrite read_word_last.
Qed.

Lemma ws_tab s :
  head_nonspace s = true → ws (open_stream (tab +:+ s)) = open_stream s.
Proof.
  intros Hs. unfold ws, tab. rewrite append_cons, append_nil_l. simpl.
  rewrite skipws_head by done. by destruct s.
Qed.

Lemma read_digits_uint d c s :
  digit_of c = None →
  read_digits (NilEmpty.string_of_uint d +:+ String c s)
  = (uint_digits d, Some (String c s)).
Proof.
  intros Hc. induction d; simpl NilEmpty.string_of_uint;
    rewrite ?append_nil_l, ?append_cons; simpl; rewrite ?Hc, ?IHd; done.
Qed.

Lemma of_uint_acc_digits d acc :
  fold_left (λ acc d, 10 * acc + d)%N (uint_digits d) (N.pos acc)
  = N.pos (Pos.of_uint_acc d acc).
Proof.
  revert acc. induction d; intros acc; simpl; [done|..];
    rewrite <- IHd; f_equal; lia.
Qed.

Lemma decimal_value_uint d : decimal_value (uint_digits d) = N.of_uint d.
Proof.
  unfold decimal_value, N.of_uint.
  induction d; simpl; [done | done | ..]; apply of_uint_acc_digits.
Qed.

Lemma to_uint_not_nil n : N.to_uint n ≠ Decimal.Nil.
Proof. destruct n; [done|]. apply DecimalPos.Unsigned.to_uint_nonnil. Qed.

(** A printed number starts with a digit: no white space, no sign. *)
Lemma string_of_uint_head d t :
  d ≠ Decimal.Nil →
  head_nonspace (NilEmpty.string_of_uint d +:+ t) = true
  ∧ read_sign (NilEmpty.string_of_uint d +:+ t)
    = (false, NilEmpty.string_of_uint d +:+ t)
  ∧ uint_digits d ≠ [].
Proof. by destruct d. Qed.

Lemma show_uint_head n t : head_nonspace (show_uint n +:+ t) = true.
Proof. apply string_of_uint_head, to_uint_not_nil. Qed.

Lemma extract_uint_shown n c s u :
  (n ≤ UINT_MAX)%N → digit_of c = None →
  extract_uint (open_stream (show_uint n +:+ String c s)) u
  = (open_stream (String c s), n).
Proof.
  intros Hn Hc. unfold extract_uint, sentry, show_uint. simpl.
  destruct (string_of_uint_head (N.to_uint n) (String c s) (to_uint_not_nil n))
    as (Hhead & Hsign & Hds).
  rewrite skipws_head by done.
  destruct (NilEmpty.string_of_uint (N.to_uint n) +:+ String c s) eqn:Hs;
    [done|]. simpl buf. rewrite Hsign, <- Hs, read_digits_uint by done.
  rewrite decimal_value_uint, DecimalN.Unsigned.of_to.
  destruct (uint_digits (N.to_uint n)); [done|].
  by destruct (N.ltb_spec UINT_MAX n); [lia|].
Qed.

Lemma no_newline_app s t :
  no_newline (s +:+ t) = no_newline s && no_newline t.
Proof.
  induction s as [|c s IH]; [done|]. rewrite append_cons. simpl.
  by rewrite IH, andb_assoc.
Qed.

Lemma no_space_no_newline s : no_space s = true → no_newline s = true.
Proof.
  induction s as [|c s IH]; simpl; [done|].
  intros [Hc%negb_true_iff Hs]%andb_true_iff. rewrite IH by done.
  rewrite andb_true_r. apply negb_true_iff.
  destruct (Ascii.eqb_spec c newline) as [->|]; done.
Qed.

Lemma no_newline_string_of_uint d : no_newline (NilEmpty.string_of_uint d) = true.
Proof. induction d; simpl; done. Qed.

Lemma no_newline_show_uint n : no_newline (show_uint n) = true.
Proof. apply no_newline_string_of_uint. Qed.

(** The line [write_bim_line] writes, without its line feed. *)
Lemma bim_line_split v :
  bim_line v
  = (show_uint (chrom v) +:+ tab +:+ name v +:+ tab +:+ "0" +:+ tab
     +:+ show_uint (position v) +:+ tab +:+ a1 v +:+ tab +:+ a2 v) +:+ endl.
Proof. unfold bim_line. by rewrite !append_assoc. Qed.

(** X5: [read_variant] undoes [write_bim_line].  For a record whose
    numbers fit an [unsigned int] and whose identifier and alleles are
    non-empty and free of white space, reading from a stream that starts
    with the line written for it returns true and this very record,
    whatever the record passed in held, and leaves the stream at the text
    after the line. *)
Theorem write_read_round_trip (v v0 : Variant) (rest : string) :
  in_range v → word (name v) → word (a1 v) → word (a2 v) →
  read_variant (open_stream (write_bim_line v "" +:+ rest)) v0
  = (open_stream rest, v, true).
Proof.
  intros [Hc Hp] Hn H1 H2.
  assert (isspace "009" = true) as Htab by done.
  assert (digit_of "009" = None) as Htabd by done.
  assert (word "0") as H0 by done.
  unfold write_bim_line. rewrite append_nil_l. fold (bim_line v).
  rewrite bim_line_split, append_assoc. unfold read_variant.
  set (line := show_uint (chrom v) +:+ _).
  assert (no_newline line = true) as Hline.
  { unfold line. rewrite !no_newline_app, !no_newline_show_uint.
    rewrite (no_space_no_newline (name v)) by apply Hn.
    rewrite (no_space_no_newline (a1 v)) by apply H1.
    rewrite (no_space_no_newline (a2 v)) by apply H2.
    done. }
  destruct (getline_endl_round_trip_eq line rest Hline) as [-> _].
  assert (line ≠ "") as Hne.
  { pose proof (show_uint_head (chrom v)
                  (tab +:+ name v +:+ tab +:+ "0" +:+ tab
                   +:+ show_uint (position v) +:+ tab +:+ a1 v +:+ tab +:+ a2 v)) as H.
    fold line in H. by destruct line. }
  destruct (String.eqb_spec line ""); [done|]. f_equal. f_equal.
  rewrite parse_line_unfold. cbv zeta. unfold line, tab.
  rewrite !append_cons, !append_nil_l.
  rewrite extract_uint_shown by done.
  change (String "009" ?s) with (tab +:+ s).
  rewrite ws_tab by by apply head_nonspace_app, word_head.
  unfold tab. rewrite ?append_cons, ?append_nil_l.
  rewrite extract_string_word by done.
  change (String "009" ?s) with (tab +:+ s).
  rewrite ws_tab by done.
  unfold tab. rewrite ?append_cons, ?append_nil_l.
  change (String "0" (String "009" ?s)) with ("0" +:+ String "009" s).
  rewrite extract_string_word by done.
  change (String "009" ?s) with (tab +:+ s).
  rewrite ws_tab by apply show_uint_head.
  unfold tab. rewrite ?append_cons, ?append_nil_l.
  rewrite extract_uint_shown by done.
  change (String "009" ?s) with (tab +:+ s).
  rewrite ws_tab by by apply head_nonspace_app, word_head.
  unfold tab. rewrite ?append_cons, ?append_nil_l.
  rewrite extract_string_word by done.
  change (String "009" ?s) with (tab +:+ s).
  rewrite ws_tab by by apply word_head.
  rewrite extract_string_last by done.
  by destruct v.
Qed.

(** ** Opening the files *)

Lemma find_fmap {A B} (f : A → B) (P : B → bool) (l : list A) :
  List.find P (f <$> l) = f <$> List.find (λ x, P (f x)) l.
Proof.
  induction l as [|x l IH]; [done|]. csimpl. rewrite IH. by destruct (P (f x)).
Qed.

Lemma find_app_list {A} (P : A → bool) (l1 l2 : list A) :
  List.find P (l1 ++ l2)%list
  = match List.find P l1 with Some x => Some x | None => List.find P l2 end.
Proof. induction l1 as [|x l IH]; simpl; [done|]. by destruct (P x). Qed.

(** [Log::open] tries the output files one after the other and stops at
    the first that cannot be opened. *)
Lemma Log_open_scan env n :
  Log_open env n
  = match List.find (λ f, negb (can_write env f)) (output_files n) with
    | Some f => (None, could_not_write f)
    | None => (Some (empty_log n), "")
    end.
Proof.
  unfold Log_open, output_files. rewrite find_app_list, find_fmap.
  destruct (List.find _ (seq 0 n)); simpl; [done|].
  destruct (can_write env "bij_matches.bim"); simpl; [|done].
  by destruct (can_write env "bij_mismatches.bim").
Qed.

Lemma find_first {A} (P : A → bool) (l : list A) k x :
  l !! k = Some x → P x = true →
  (∀ j y, (j < k)%nat → l !! j = Some y → P y = false) →
  List.find P l = Some x.
Proof.
  revert k. induction l as [|y l IH]; intros k Hk Hx Hbefore; [done|].
  destruct k as [|k]; simpl in *.
  - injection Hk as ->. by rewrite Hx.
  - rewrite (Hbefore 0%nat y) by (done || lia).
    apply (IH k); [done | done |]. intros j z Hj Hz.
    apply (Hbefore (S j)); [lia | done].
Qed.

Lemma find_none_all {A} (P : A → bool) (l : list A) :
  forallb (λ x, negb (P x)) l = true → List.find P l = None.
Proof.
  induction l as [|y l IH]; simpl; [done|].
  intros [Hy%negb_true_iff Hl]%andb_true_iff. rewrite Hy. by apply IH.
Qed.

(** X12: [Log::open] gives a log with one empty name list per input and
    empty match and mismatch outputs when every output file can be opened;
    otherwise it throws, and the message on [std::cerr] names the first
    file, in the order the name lists, [bij_matches.bim],
    [bij_mismatches.bim], that cannot be opened. *)
Theorem Log_open_first_failure (env : Env) (n : nat) :
  (outputs_writable env n = true →
     Log_open env n = (Some (empty_log n), ""))
  ∧ (∀ k f, output_files n !! k = Some f → can_write env f = false →
       (∀ j g, (j < k)%nat → output_files n !! j = Some g →
               can_write env g = true) →
       Log_open env n = (None, could_not_write f)).
Proof.
  split.
  - intros Hw. pose proof (Log_open_cases env n) as H. by rewrite Hw in H.
  - intros k f Hk Hf Hbefore. rewrite Log_open_scan.
    rewrite (find_first _ _ k f); [done | done | by rewrite Hf |].
    intros j g Hj Hg. by rewrite (Hbefore j g).
Qed.

Lemma open_files_all env args contents out :
  Forall2 (λ a c, input_file env a = Some c) args contents →
  open_files env args out
  = (Some (open_stream <$> contents), out +:+ openings args).
Proof.
  intros H. revert out. induction H as [|a c args contents Ha _ IH]; intros out.
  - simpl. by rewrite append_nil_r.
  - simpl. rewrite Ha, IH. csimpl. by rewrite !append_assoc.
Qed.

Lemma open_files_missing env before missing after out :
  Forall (λ a, is_Some (input_file env a)) before →
  input_file env missing = None →
  open_files env (before ++ missing :: after)%list out
  = (None, out +:+ openings (before ++ [missing])%list
           +:+ "Could not find file: " +:+ missing +:+ endl).
Proof.
  intros H Hm. revert out. induction H as [|a before [c Ha] _ IH]; intros out.
  - simpl. rewrite Hm. by rewrite !append_assoc.
  - simpl. rewrite Ha, IH. by rewrite !append_assoc.
Qed.

(** X11: when, of at least two input files, one cannot be opened, the run
    ends with status 1 and no merge.  The files before the first missing
    one are announced and opened, the missing one is announced and
    reported, and the files after it are not touched; the output files
    have been opened by then and are left empty. *)
Theorem missing_input_file
    (env : Env) (before : list string) (missing : string) (after : list string)
    (fuel : nat) :
  let args := (before ++ missing :: after)%list in
  (2 ≤ length args)%nat →
  outputs_writable env (length args) = true →
  Forall (λ a, is_Some (input_file env a)) before →
  input_file env missing = None →
  main env args fuel
  = Some {| status := 1;
            cout := openings (before ++ [missing])%list
                    +:+ "Could not find file: " +:+ missing +:+ endl;
            cerr := "";
            outputs := Some (empty_log (length args));
            merged := None |}.
Proof.
  intros args Hargs Hw Hbefore Hm. unfold main.
  replace (S (length args) - 1)%nat with (length args) by lia.
  pose proof (Log_open_cases env (length args)) as Hopen. rewrite Hw in Hopen.
  rewrite Hopen.
  assert ((S (length args) <=? 2)%nat = false) as -> by (apply Nat.leb_gt; lia).
  unfold args. by rewrite (open_files_missing env before missing after "").
Qed.

(** ** Runs that read nothing *)

Lemma any_eof_true fs n i :
  (i < n)%nat → eof (fs !!! i) = true → any_eof fs n = true.
Proof.
  intros Hi He. unfold any_eof. apply existsb_exists. exists i.
  split; [apply in_seq; lia | done].
Qed.

Lemma count_newlines_zero s : count_newlines s = 0%nat → no_newline s = true.
Proof.
  induction s as [|c s IH]; simpl; [done|].
  destruct (Ascii.eqb c newline); simpl; [done | auto].
Qed.

Lemma main_loop_at_eof n fuel st :
  any_eof (files st) n = true → main_loop n fuel st = Some (0%nat, st).
Proof. intros H. destruct fuel; simpl; by rewrite H. Qed.

(** X14: a file without any line feed, be it empty or a single record with
    nothing after it, ends the run before the first round: whatever the
    other files hold, and whatever the number of rounds allowed, the run
    exits with status 0 in the state in which it entered the loop, with
    every output empty. *)
Theorem file_without_line_feed
    (env : Env) (args contents : list string) (i : nat) (fuel : nat) :
  (2 ≤ length args)%nat →
  outputs_writable env (length args) = true →
  Forall2 (λ a c, input_file env a = Some c) args contents →
  (i < length contents)%nat →
  count_newlines (contents !!! i) = 0%nat →
  ∃ st,
    main env args fuel
    = Some {| status := 0; cout := openings args; cerr := "";
              outputs := Some (empty_log (length args));
              merged := Some st |}
    ∧ st = initial_state env (open_stream <$> contents) (empty_log (length args))
    ∧ log st = empty_log (length args).
Proof.
  intros Hargs Hw Hin Hi Hnl.
  pose proof (Log_open_cases env (length args)) as Hopen. rewrite Hw in Hopen.
  pose proof (Forall2_length _ _ _ Hin) as Hlen.
  eexists. split; [|split; [reflexivity | apply initial_state_log]].
  rewrite (main_reaches_loop env args fuel _ _ _ _ Hargs Hopen
             (open_files_all env args contents "" Hin)).
  rewrite main_loop_at_eof.
  - by rewrite initial_state_log, append_nil_l.
  - apply (any_eof_true _ _ i); [lia|].
    rewrite initial_state_first_read by done.
    destruct (getline_endl_round_trip_eq (contents !!! i) ""
                (count_newlines_zero _ Hnl)) as [_ ->]. done.
Qed.

(** X16: a run on at least two files that can all be opened, with
    writable outputs and inputs in the one-record-per-line format, ends
    with status 0 within as many rounds as the files hold records, having
    announced every file, in a state where some stream is at its end,
    provided no round meets a frontier that mismatches while all its
    records share one locus. *)
Theorem main_ends_with_status_0
    (env : Env) (args contents : list string) :
  let n := length args in
  let st0 := initial_state env (open_stream <$> contents) (empty_log n) in
  let bound := sum_list_with record_count contents in
  (2 ≤ n)%nat →
  outputs_writable env n = true →
  Forall2 (λ a c, input_file env a = Some c) args contents →
  Forall one_record_per_line contents →
  (∀ j, (j < bound)%nat →
        any_eof (files (Nat.iter j (loop_body n) st0)) n = false →
        tie_mismatch n (Nat.iter j (loop_body n) st0) = false) →
  ∃ e st,
    main env args bound = Some e
    ∧ status e = 0
    ∧ cout e = openings args
    ∧ merged e = Some st
    ∧ outputs e = Some (log st)
    ∧ any_eof (files st) n = true.
Proof.
  intros n st0 bound Hargs Hw Hin Hfmt Htie.
  pose proof (Log_open_cases env n) as Hopen. rewrite Hw in Hopen.
  pose proof (Forall2_length _ _ _ Hin) as Hlen. fold n in Hlen.
  destruct (main_loop_terminates n bound st0) as (steps & st & Hrun & _).
  - lia.
  - unfold st0. rewrite Hlen. apply initial_state_invariant.
  - by apply initial_reads_left.
  - done.
  - exists {| status := 0; cout := openings args; cerr := "";
              outputs := Some (log st); merged := Some st |}, st.
    rewrite (main_reaches_loop env args bound _ _ _ _ Hargs Hopen
               (open_files_all env args contents "" Hin)).
    fold n. fold st0. rewrite Hrun. rewrite append_nil_l.
    repeat split; try done.
    by destruct (main_loop_exit _ _ _ _ _ Hrun) as (_ & ? & _).
Qed.

(** ** The outputs stay in step *)

Lemma count_newlines_app s t :
  count_newlines (s +:+ t) = (count_newlines s + count_newlines t)%nat.
Proof.
  induction s as [|c s IH]; [done|]. rewrite append_cons. simpl.
  rewrite IH. lia.
Qed.

Lemma count_newlines_none s : no_newline s = true → count_newlines s = 0%nat.
Proof.
  induction s as [|c s IH]; simpl; [done|].
  intros [Hc%negb_true_iff Hs]%andb_true_iff. rewrite Hc. by apply IH.
Qed.

Lemma count_newlines_clean s : no_space s = true → count_newlines s = 0%nat.
Proof. intros H. by apply count_newlines_none, no_space_no_newline. Qed.

Lemma count_newlines_bim_line v : clean v → count_newlines (bim_line v) = 1%nat.
Proof.
  intros (Hn & H1 & H2). unfold bim_line.
  rewrite !count_newlines_app.
  rewrite !(count_newlines_none (show_uint _)) by apply no_newline_show_uint.
  rewrite (count_newlines_clean _ Hn), (count_newlines_clean _ H1),
    (count_newlines_clean _ H2).
  done.
Qed.

Lemma read_word_no_space s : no_space (read_word s).1 = true.
Proof.
  induction s as [|c s IH]; simpl; [done|].
  destruct (isspace c) eqn:Hc; [done|].
  destruct (read_word s) as [w r]. simpl in *. by rewrite Hc, IH.
Qed.

Lemma extract_string_no_space ss str :
  no_space str = true → no_space (extract_string ss str).2 = true.
Proof.
  intros Hs. unfold extract_string.
  destruct (sentry ss) as [ss1 []]; [|done].
  pose proof (read_word_no_space (buf ss1)) as H.
  by destruct (read_word (buf ss1)) as [w [r|]].
Qed.

Lemma parse_line_clean line v : clean v → clean (parse_line line v).
Proof.
  intros (Hn & H1 & H2).
  destruct (parse_line_fields line v) as (_ & s2 & _ & s4 & s5 & _ & En & _ & E1 & E2).
  repeat split; [rewrite En | rewrite E1 | rewrite E2];
    by apply extract_string_no_space.
Qed.

Lemma read_variant_clean file v : clean v → clean (read_variant file v).1.2.
Proof.
  intros Hv. unfold read_variant. destruct (getline file) as [f line].
  destruct (String.eqb line ""); simpl; [done|]. by apply parse_line_clean.
Qed.

(** The cursors after a round, stream by stream: read once or held. *)
Lemma loop_body_cur n st i :
  length (files st) = n → length (cur st) = n →
  cur (loop_body n st) !!! i = (read_variant (files st !!! i) (cur st !!! i)).1.2
  ∨ cur (loop_body n st) !!! i = cur st !!! i.
Proof.
  intros Hf Hc.
  destruct (check_match (cur st) n (log st)) as [[] lg'] eqn:Hcm.
  - rewrite (loop_body_match _ _ _ Hcm). simpl.
    pose proof (read_variants_pointwise _ _ _ i Hf Hc) as Hpt.
    destruct (_ && _); apply (f_equal snd) in Hpt; simpl in Hpt;
      rewrite Hpt; auto.
  - rewrite loop_body_mismatch by by rewrite Hcm. simpl.
    pose proof (read_variants_until_max_pointwise _ _ (max (cur st) n) _ i Hf Hc) as Hpt.
    destruct (_ && _); apply (f_equal snd) in Hpt; simpl in Hpt;
      rewrite Hpt; auto.
Qed.

Lemma representative_member li n :
  (0 < n)%nat → ∃ i, (i < n)%nat ∧ representative li n = li !!! i.
Proof.
  intros Hn. unfold representative.
  destruct (List.find _ _) as [i|] eqn:Hfind.
  - apply find_some in Hfind as [Hin%in_seq _]. exists i. split; [lia | done].
  - by exists 0%nat.
Qed.

Lemma check_match_in_step li n lg :
  (0 < n)%nat → (∀ i, (i < n)%nat → clean (li !!! i)) →
  lines_in_step n lg → lines_in_step n (check_match li n lg).2.
Proof.
  intros Hn Hclean [Hlen Hstep].
  pose proof (check_match_log li n lg ltac:(lia)) as H.
  destruct (check_match li n lg) as [[] lg']; simpl; [|by subst].
  destruct H as (_ & _ & Hlen' & Hnames & Hm). split; [congruence|].
  intros i Hi. rewrite Hnames, Hm. rewrite decide_True by done.
  destruct (representative_member li n Hn) as (k & Hk & ->).
  rewrite !count_newlines_app, count_newlines_bim_line by by apply Hclean.
  destruct (Hclean i Hi) as (Hname & _).
  rewrite (count_newlines_clean _ Hname), (Hstep i Hi). done.
Qed.

Lemma loop_body_log n st :
  log (loop_body n st) = (check_match (cur st) n (log st)).2.
Proof.
  unfold loop_body. destruct (check_match _ _ _) as [[] lg']; simpl.
  - by destruct (read_variants _ _ _).
  - by destruct (read_variants_until_max _ _ _ _).
Qed.

Lemma loop_body_in_step n st :
  (0 < n)%nat → length (files st) = n → length (cur st) = n →
  (∀ i, (i < n)%nat → clean (cur st !!! i)) → lines_in_step n (log st) →
  (∀ i, (i < n)%nat → clean (cur (loop_body n st) !!! i))
  ∧ lines_in_step n (log (loop_body n st)).
Proof.
  intros Hn Hf Hc Hclean Hstep. split.
  - intros i Hi. destruct (loop_body_cur n st i Hf Hc) as [-> | ->].
    + by apply read_variant_clean, Hclean.
    + by apply Hclean.
  - rewrite loop_body_log. by apply check_match_in_step.
Qed.

Lemma main_loop_in_step n fuel st steps st' :
  (0 < n)%nat → length (files st) = n → length (cur st) = n →
  (∀ i, (i < n)%nat → clean (cur st !!! i)) → lines_in_step n (log st) →
  main_loop n fuel st = Some (steps, st') →
  lines_in_step n (log st').
Proof.
  intros Hn. revert st steps.
  induction fuel as [|fuel IH]; intros st steps Hf Hc Hclean Hstep; simpl.
  - destruct (any_eof _ _); [|done]. by intros [= <- <-].
  - destruct (any_eof _ _); [by intros [= <- <-]|].
    destruct (main_loop n fuel (loop_body n st)) as [[k s]|] eqn:Hrun; [|done].
    intros [= <- <-].
    destruct (loop_body_lengths n st Hf Hc) as [Hf' Hc'].
    destruct (loop_body_in_step n st Hn Hf Hc Hclean Hstep) as [Hclean' Hstep'].
    by apply (IH _ _ Hf' Hc' Hclean' Hstep' Hrun).
Qed.

Lemma empty_log_in_step n : lines_in_step n (empty_log n).
Proof.
  split; [apply length_replicate|]. intros i Hi. simpl.
  by rewrite lookup_total_replicate_2.
Qed.

Lemma initial_state_clean env fs lg i :
  (i < length fs)%nat → clean (cur (initial_state env fs lg) !!! i).
Proof.
  intros Hi. rewrite initial_state_cur.
  pose proof (read_variants_pointwise fs
                (uninitialised env <$> seq 0 (length fs)) (length fs) i
                eq_refl (uninitialised_length env _)) as Hpt.
  apply (f_equal snd) in Hpt. simpl in Hpt. rewrite Hpt.
  assert ((uninitialised env <$> seq 0 (length fs)) !!! i = uninitialised env i)
    as ->.
  { rewrite (list_lookup_total_fmap (uninitialised env) (seq 0 (length fs)) i)
      by by rewrite length_seq.
    by rewrite lookup_total_seq_lt. }
  destruct (_ && _); [apply read_variant_clean|]; done.
Qed.

Lemma initial_state_lengths env fs lg :
  length (files (initial_state env fs lg)) = length fs
  ∧ length (cur (initial_state env fs lg)) = length fs.
Proof.
  rewrite initial_state_files, initial_state_cur.
  apply read_variants_length; [done | apply uninitialised_length].
Qed.

Lemma open_files_length env args out fs out' :
  open_files env args out = (Some fs, out') → length fs = length args.
Proof.
  revert out fs out'. induction args as [|a args IH]; intros out fs out'; simpl.
  - by intros [= <- _].
  - destruct (input_file env a); [|done].
    destruct (open_files env args _) as [[fs'|] o] eqn:Hrec; [|done].
    intros [= <- _]. simpl. f_equal. by eapply IH.
Qed.

(** X13: the outputs stay in step.  However a run ends, each name list
    holds exactly as many lines as the matched-records output, so that line
    [k] of every list names the identifier its file gives to the [k]-th
    matched record. *)
Theorem outputs_line_up
    (env : Env) (args : list string) (fuel : nat) (e : Exit) (lg : Log) (i : nat) :
  main env args fuel = Some e → outputs e = Some lg → (i < length args)%nat →
  length (names_lists lg) = length args
  ∧ count_newlines (names_lists lg !!! i) = count_newlines (matches_bim lg).
Proof.
  intros Hmain Hout Hi.
  assert (lines_in_step (length args) lg) as [Hlen Hstep];
    [|split; [done | by apply Hstep]].
  revert Hmain Hout. unfold main.
  replace (S (length args) - 1)%nat with (length args) by lia.
  destruct (Log_open env (length args)) as [[opened|] err] eqn:Hopen;
    [|by intros [= <-]].
  apply Log_open_empty in Hopen. subst opened.
  fold (empty_log (length args)).
  destruct (_ <=? 2)%nat eqn:Hargs;
    [intros [= <-] [= <-]; apply empty_log_in_step|].
  apply Nat.leb_gt in Hargs.
  destruct (open_files env args "") as [[fs|] out] eqn:Hfiles;
    [|intros [= <-] [= <-]; apply empty_log_in_step].
  apply open_files_length in Hfiles.
  destruct (main_loop _ _ _) as [[k s]|] eqn:Hrun; [|done].
  intros [= <-] [= <-].
  destruct (initial_state_lengths env fs (empty_log (length args))) as [Hf Hc].
  assert (0 < length args)%nat as Hn by lia.
  eapply (main_loop_in_step _ _ _ _ _ Hn); [| | | |exact Hrun].
  - congruence.
  - congruence.
  - intros j Hj. apply initial_state_clean. lia.
  - rewrite initial_state_log. apply empty_log_in_step.
Qed.

(** ** Rounds that change nothing *)

(** X18: while no stream is at its end, a round leaves the state exactly
    as it was if and only if its frontier mismatches with all records at
    one locus; every other round reads at least one line. *)
Theorem round_stuck_iff_tie (n : nat) (st : State) :
  (0 < n)%nat → merge_invariant n st → any_eof (files st) n = false →
  (loop_body n st = st ↔ tie_mismatch n st = true)
  ∧ (tie_mismatch n st = false →
     (total_reads_left (files (loop_body n st)) < total_reads_left (files st))%nat).
Proof.
  intros Hn Hinv Heof. split; [split|].
  - intros Hfix. destruct (tie_mismatch n st) eqn:Htie; [done|].
    pose proof (loop_body_progress n st Hn Hinv Heof Htie) as Hlt.
    rewrite Hfix in Hlt. lia.
  - apply tie_mismatch_fixed.
  - by apply loop_body_progress.
Qed.

(** ** Printing a frontier *)

Lemma count_newlines_show_variant v :
  clean v → count_newlines (show_variant v) = 0%nat.
Proof.
  intros (Hn & H1 & H2). unfold show_variant.
  rewrite !count_newlines_app.
  rewrite !(count_newlines_none (show_uint _)) by apply no_newline_show_uint.
  rewrite (count_newlines_clean _ Hn), (count_newlines_clean _ H1),
    (count_newlines_clean _ H2).
  done.
Qed.

(** X17: [print_variants] adds exactly one line to the output: for a
    non-empty frontier of records whose text fields hold no white space,
    the text printed holds one line feed more than before, and that line
    feed is its last character. *)
Theorem print_variants_one_line (li : list Variant) (n : nat) (out : string) :
  (0 < n)%nat → (∀ i, (i < n)%nat → clean (li !!! i)) →
  count_newlines (print_variants li n out) = S (count_newlines out)
  ∧ ∃ body, print_variants li n out = out +:+ body +:+ endl
            ∧ count_newlines body = 0%nat.
Proof.
  intros Hn Hclean. unfold print_variants.
  assert (∀ l out, (∀ i, In i l → clean (li !!! i)) →
            ∃ body,
              fold_left (λ out i, out +:+ show_variant (li !!! i) +:+ ", ") l out
              = out +:+ body
              ∧ count_newlines body = 0%nat) as Hfold.
  { induction l as [|i l IH]; intros o Hl.
    - exists "". by rewrite append_nil_r.
    - simpl. destruct (IH (o +:+ show_variant (li !!! i) +:+ ", ")) as (b & -> & Hb).
      { intros j Hj. apply Hl. by right. }
      exists (show_variant (li !!! i) +:+ ", " +:+ b).
      rewrite !append_assoc. split; [done|].
      rewrite !count_newlines_app, count_newlines_show_variant, Hb
        by (apply Hl; by left).
      done. }
  destruct (Hfold (seq 0 (n - 1)) out) as (b & Hb & Hb0).
  { intros i Hi%in_seq. apply Hclean. lia. }
  assert (count_newlines (show_variant (li !!! (n - 1)%nat)) = 0%nat) as Hlast
    by (apply count_newlines_show_variant, Hclean; lia).
  split.
  - rewrite Hb, !count_newlines_app, Hb0, Hlast. simpl. lia.
  - exists (b +:+ show_variant (li !!! (n - 1)%nat)).
    rewrite Hb, !append_assoc. split; [done|].
    by rewrite count_newlines_app, Hb0, Hlast.
Qed.

(** ** The properties at work *)

Lemma getline_endl_round_trip_witness :
  no_newline "1 rs1 0 100 A G" = true
  ∧ getline (open_stream ("1 rs1 0 100 A G" +:+ endl +:+ "1 rs2 0 200 A T"))
    = (open_stream "1 rs2 0 200 A T", "1 rs1 0 100 A G")
  ∧ getline (open_stream "1 rs1 0 100 A G")
    = ({| buf := ""; eofbit := true; failbit := false |}, "1 rs1 0 100 A G").
Proof.
  split; [reflexivity|].
  exact (getline_endl_round_trip "1 rs1 0 100 A G" "1 rs2 0 200 A T" eq_refl).
Defined.

Lemma write_read_round_trip_witness :
  (in_range rs1 ∧ word (name rs1) ∧ word (a1 rs1) ∧ word (a2 rs1))
  ∧ read_variant (open_stream (write_bim_line rs1 "" +:+ "1 rs2 0 200 A T")) stale
    = (open_stream "1 rs2 0 200 A T", rs1, true).
Proof.
  assert (in_range rs1) as Hr by (split; vm_compute; discriminate).
  assert (word (name rs1)) as Hn by (split; [discriminate | reflexivity]).
  assert (word (a1 rs1)) as H1 by (split; [discriminate | reflexivity]).
  assert (word (a2 rs1)) as H2 by (split; [discriminate | reflexivity]).
  split; [done|].
  exact (write_read_round_trip rs1 stale "1 rs2 0 200 A T" Hr Hn H1 H2).
Defined.

Lemma blank_line_read_as_record_witness :
  read_variant (open_stream ("  " +:+ endl +:+ "1 rs1 0 100 A G")) stale
  = (open_stream "1 rs1 0 100 A G", stale, true).
Proof.
  apply (blank_line_read_as_record
           (open_stream ("  " +:+ endl +:+ "1 rs1 0 100 A G")) stale).
  - vm_compute. discriminate.
  - vm_compute. reflexivity.
Defined.

Lemma non_numeric_line_zeroes_chromosome_witness :
  read_variant (open_stream ("chrX rs1 0 100 A G" +:+ endl)) stale
  = (open_stream "",
     {| chrom := 0; name := "rs7"; position := 700; a1 := "C"; a2 := "T" |},
     true).
Proof.
  apply (non_numeric_line_zeroes_chromosome
           (open_stream ("chrX rs1 0 100 A G" +:+ endl)) stale
           "c" "hrX rs1 0 100 A G").
  - vm_compute. reflexivity.
  - vm_compute. reflexivity.
  - discriminate.
  - discriminate.
Defined.

Lemma streams_only_advance_witness :
  suffix_of (buf (files (Nat.iter 1 (loop_body 2) scenario_D_entry) !!! 0%nat))
            (buf (files scenario_D_entry !!! 0%nat))
  ∧ (eof (files scenario_D_entry !!! 0%nat) = true →
     eof (files (Nat.iter 1 (loop_body 2) scenario_D_entry) !!! 0%nat) = true).
Proof.
  apply (streams_only_advance 2 scenario_D_entry 1 0); vm_compute; reflexivity.
Defined.

Lemma match_advances_all_witness :
  check_match (cur scenario_A_entry) 2 (log scenario_A_entry)
  = (true, (check_match (cur scenario_A_entry) 2 (log scenario_A_entry)).2)
  ∧ (files (loop_body 2 scenario_A_entry) !!! 1%nat,
     cur (loop_body 2 scenario_A_entry) !!! 1%nat)
    = (read_variant (files scenario_A_entry !!! 1%nat)
                    (cur scenario_A_entry !!! 1%nat)).1.
Proof.
  assert (check_match (cur scenario_A_entry) 2 (log scenario_A_entry)
          = (true, (check_match (cur scenario_A_entry) 2 (log scenario_A_entry)).2))
    as Hcm by (vm_compute; reflexivity).
  split; [done|].
  destruct (match_advances_all 2 scenario_A_entry _ 1
              ltac:(vm_compute; reflexivity) ltac:(vm_compute; reflexivity)
              ltac:(lia) Hcm) as (_ & Hadv & _).
  apply Hadv. vm_compute. reflexivity.
Defined.

Lemma match_shares_locus_witness :
  fst (check_match scenario_B_frontier 2 (empty_log 2)) = true
  ∧ (∀ i, (i < 2)%nat →
          Variant.eq (scenario_B_frontier !!! i) (scenario_B_frontier !!! 0%nat)
          = true)
  ∧ Variant.eq (representative scenario_B_frontier 2)
               (scenario_B_frontier !!! 0%nat) = true
  ∧ max scenario_B_frontier 2 = 0%nat.
Proof.
  assert (fst (check_match scenario_B_frontier 2 (empty_log 2)) = true) as H
    by (vm_compute; reflexivity).
  split; [done|].
  exact (match_shares_locus scenario_B_frontier 2 (empty_log 2) H).
Defined.

Lemma main_loop_first_eof_witness :
  main_loop 2 5 scenario_D_entry
  = Some (2%nat, Nat.iter 2 (loop_body 2) scenario_D_entry)
  ∧ any_eof (files (Nat.iter 2 (loop_body 2) scenario_D_entry)) 2 = true
  ∧ main_loop 2 2 scenario_D_entry
    = Some (2%nat, Nat.iter 2 (loop_body 2) scenario_D_entry).
Proof.
  assert (main_loop 2 5 scenario_D_entry
          = Some (2%nat, Nat.iter 2 (loop_body 2) scenario_D_entry)) as Hrun
    by (vm_compute; reflexivity).
  split; [done|].
  destruct (main_loop_first_eof 2 5 scenario_D_entry 2 _ Hrun)
    as (_ & Hend & _ & Hfuel).
  split; [done|]. apply Hfuel. lia.
Defined.

Lemma missing_input_file_witness :
  main scenario_A ["f1.bim"; "f3.bim"; "f2.bim"] 0
  = Some {| status := 1;
            cout := openings ["f1.bim"; "f3.bim"]
                    +:+ "Could not find file: " +:+ "f3.bim" +:+ endl;
            cerr := "";
            outputs := Some (empty_log 3);
            merged := None |}.
Proof.
  apply (missing_input_file scenario_A ["f1.bim"] "f3.bim" ["f2.bim"] 0).
  - simpl. lia.
  - vm_compute. reflexivity.
  - repeat constructor. by eexists.
  - reflexivity.
Defined.

Lemma outputs_line_up_witness :
  ∃ e lg,
    main scenario_D ["f1.bim"; "f2.bim"] 2 = Some e
    ∧ outputs e = Some lg
    ∧ length (names_lists lg) = 2%nat
    ∧ count_newlines (names_lists lg !!! 1%nat) = count_newlines (matches_bim lg)
    ∧ count_newlines (matches_bim lg) = 1%nat.
Proof.
  destruct (main scenario_D ["f1.bim"; "f2.bim"] 2) as [e|] eqn:Hmain;
    [|vm_compute in Hmain; discriminate].
  destruct (outputs e) as [lg|] eqn:Hout.
  - exists e, lg. split; [done|]. split; [done|].
    destruct (outputs_line_up scenario_D ["f1.bim"; "f2.bim"] 2 e lg 1 Hmain Hout
                ltac:(simpl; lia)) as [Hlen Hstep].
    split; [done|]. split; [done|].
    vm_compute in Hmain. injection Hmain as <-. vm_compute in Hout.
    injection Hout as <-. reflexivity.
  - vm_compute in Hmain. injection Hmain as <-. vm_compute in Hout. discriminate.
Defined.

Lemma file_without_line_feed_witness :
  ∃ st,
    main unterminated ["f1.bim"; "f2.bim"] 0
    = Some {| status := 0; cout := openings ["f1.bim"; "f2.bim"]; cerr := "";
              outputs := Some (empty_log 2); merged := Some st |}
    ∧ st = initial_state unterminated (open_stream <$> unterminated_files)
             (empty_log 2)
    ∧ log st = empty_log 2.
Proof.
  apply (file_without_line_feed unterminated ["f1.bim"; "f2.bim"]
           unterminated_files 0 0).
  - simpl. lia.
  - vm_compute. reflexivity.
  - repeat constructor.
  - simpl. lia.
  - vm_compute. reflexivity.
Defined.

Lemma main_ends_with_status_0_witness :
  ∃ e st,
    main scenario_D ["f1.bim"; "f2.bim"] 3 = Some e
    ∧ status e = 0
    ∧ cout e = openings ["f1.bim"; "f2.bim"]
    ∧ merged e = Some st
    ∧ outputs e = Some (log st)
    ∧ any_eof (files st) 2 = true.
Proof.
  apply (main_ends_with_status_0 scenario_D ["f1.bim"; "f2.bim"] scenario_D_files).
  - simpl. lia.
  - vm_compute. reflexivity.
  - repeat constructor.
  - repeat constructor; vm_compute; repeat constructor; discriminate.
  - intros j Hj. vm_compute in Hj.
    destruct j as [|[|[|j]]]; [vm_compute; congruence.. | lia].
Defined.

Lemma round_stuck_iff_tie_witness :
  (loop_body 2 scenario_C_entry = scenario_C_entry
   ↔ tie_mismatch 2 scenario_C_entry = true)
  ∧ (tie_mismatch 2 scenario_C_entry = false →
     (total_reads_left (files (loop_body 2 scenario_C_entry))
      < total_reads_left (files scenario_C_entry))%nat).
Proof.
  apply (round_stuck_iff_tie 2 scenario_C_entry).
  - lia.
  - apply (initial_state_invariant scenario_C
             [bim ["1 rs1 0 100 A G"]; bim ["1 rs1b 0 100 C T"]] (empty_log 2)).
  - vm_compute. reflexivity.
Defined.

Lemma print_variants_one_line_witness :
  count_newlines (print_variants scenario_B_frontier 2 "") = 1%nat
  ∧ ∃ body, print_variants scenario_B_frontier 2 "" = "" +:+ body +:+ endl
            ∧ count_newlines body = 0%nat.
Proof.
  apply (print_variants_one_line scenario_B_frontier 2 "").
  - lia.
  - intros [|[|i]] Hi; [repeat split.. | lia].
Defined.

(** ** The sentinel allele *)

Lemma alleles_subset_size a b a' b' :
  (∀ x, x ∈ Variant.alleles a' b' → x ∈ Variant.alleles a b) →
  (size (Variant.alleles a b) ≤ 2)%nat → (size (Variant.alleles a' b') ≤ 2)%nat.
Proof.
  intros Hsub Hsize. etrans; [|exact Hsize]. by apply subseteq_size.
Qed.

(** X22: the sentinel never breaks a match.  Setting an allele of a record
    to ["0"] keeps it allele compatible with every record it was
    compatible with, and a record with both alleles ["0"] is compatible
    with every record at its locus. *)
Theorem sentinel_never_breaks_match :
  (∀ a b, Variant.alleles_eq a b = true →
          Variant.alleles_eq (mask_a1 a) b = true
          ∧ Variant.alleles_eq (mask_a2 a) b = true)
  ∧ (∀ a b, Variant.eq a b = true → a1 a = "0" → a2 a = "0" →
            Variant.alleles_eq a b = true).
Proof.
  split.
  - intros a b. unfold Variant.alleles_eq.
    intros [Heq Hsize%bool_decide_eq_true]%andb_true_iff.
    change (Variant.eq (mask_a1 a) b) with (Variant.eq a b).
    change (Variant.eq (mask_a2 a) b) with (Variant.eq a b).
    rewrite Heq. simpl.
    split; apply bool_decide_eq_true;
      (eapply alleles_subset_size; [|exact Hsize]);
      intros x; unfold Variant.alleles; rewrite !elem_of_insert_allele;
      simpl; tauto.
  - intros a b Heq H1 H2. unfold Variant.alleles_eq. rewrite Heq. simpl.
    apply bool_decide_eq_true.
    etrans; [|apply (size_pair (a1 b) (a2 b))].
    apply subseteq_size. intros x. unfold Variant.alleles.
    rewrite !elem_of_insert_allele, H1, H2, elem_of_union, !elem_of_singleton,
      elem_of_empty.
    tauto.
Qed.

(** ** The output files *)

Lemma uint_digits_inj d1 d2 : uint_digits d1 = uint_digits d2 → d1 = d2.
Proof.
  revert d2. induction d1; intros d2; destruct d2; simpl; try done;
    intros [= H]; f_equal; by apply IHd1.
Qed.

Lemma names_filename_inj i j : names_filename i = names_filename j → i = j.
Proof.
  unfold names_filename, show_uint. intros H.
  apply (inj (String.app "bij_names_")) in H.
  assert (digit_of "." = None) as Hdot by done.
  pose proof (read_digits_uint (N.to_uint (N.of_nat (i + 1))) "." "txt" Hdot) as Hi.
  pose proof (read_digits_uint (N.to_uint (N.of_nat (j + 1))) "." "txt" Hdot) as Hj.
  change (String "." "txt") with ".txt" in *. rewrite H, Hj in Hi.
  injection Hi as Hi. apply uint_digits_inj, DecimalN.Unsigned.to_uint_inj in Hi.
  lia.
Qed.

Lemma names_filename_not_bim i :
  names_filename i ≠ "bij_matches.bim" ∧ names_filename i ≠ "bij_mismatches.bim".
Proof.
  unfold names_filename. rewrite !append_cons, append_nil_l. split; discriminate.
Qed.

(** X21: the output files are pairwise different: every input gets a name
    list of its own, and none of them is the match or the mismatch
    file. *)
Theorem output_files_distinct (n : nat) : NoDup (output_files n).
Proof.
  unfold output_files. apply NoDup_app. split; [|split].
  - apply NoDup_fmap_2; [|apply NoDup_seq]. intros i j. apply names_filename_inj.
  - intros f [i [-> _]]%list_elem_of_fmap Hin.
    destruct (names_filename_not_bim i) as [H1 H2].
    apply elem_of_cons in Hin as [Hin|Hin]; [done|].
    apply elem_of_cons in Hin as [Hin|Hin]; [done|].
    by apply elem_of_nil in Hin.
  - apply NoDup_cons. split; [|apply NoDup_singleton].
    intros Hin. apply list_elem_of_singleton in Hin. discriminate.
Qed.

(** ** How a run ends *)

(** X20: a run that ends has exit status 0 or 1: status 0 exactly when
    the merge was run, and then nothing went to [std::cerr] and the
    outputs are those of the merge; only a failure to open an output file
    writes to [std::cerr], and then nothing goes to [std::cout]. *)
Theorem exit_status_tells_merge
    (env : Env) (args : list string) (fuel : nat) (e : Exit) :
  main env args fuel = Some e →
  ((status e = 0 ∧ ∃ st, merged e = Some st ∧ outputs e = Some (log st)
                         ∧ any_eof (files st) (length args) = true)
   ∨ (status e = 1 ∧ merged e = None))
  ∧ (cerr e ≠ "" → outputs e = None ∧ cout e = "" ∧ status e = 1)
  ∧ (status e = 0 → cerr e = "").
Proof.
  unfold main. replace (S (length args) - 1)%nat with (length args) by lia.
  pose proof (Log_open_cases env (length args)) as Hopen.
  destruct (outputs_writable env (length args)).
  - rewrite Hopen.
    destruct (_ <=? 2)%nat.
    { intros [= <-]. simpl.
      split; [by right | split; [intros H; by destruct H | done]]. }
    destruct (open_files env args "") as [[fs|] out].
    2:{ intros [= <-]. simpl.
        split; [by right | split; [intros H; by destruct H | done]]. }
    destruct (main_loop _ _ _) as [[k s]|] eqn:Hrun; [|done].
    intros [= <-]. simpl.
    destruct (main_loop_exit _ _ _ _ _ Hrun) as (_ & Hend & _).
    split; [left; eauto | split; [intros H; by destruct H | done]].
  - destruct Hopen as (f & _ & _ & ->). intros [= <-]. simpl.
    split; [by right | split; done].
Qed.

(** ** The last line of a file *)

Lemma getline_last_line f :
  good f = true → count_newlines (buf f) = 0%nat → eof (getline f).1 = true.
Proof.
  intros Hg Hnl. unfold getline. rewrite Hg.
  by rewrite (read_line_last _ (count_newlines_zero _ Hnl)).
Qed.

(** X19: a line with no line feed after it is read but never compared.
    When a round advances a stream whose remaining text holds no line
    feed, the record on that text is put in the cursor, the stream is at
    its end, and the loop is left before [check_match] sees the record. *)
Theorem unterminated_last_line_ends_run (n : nat) (st : State) (i : nat) :
  length (files st) = n → length (cur st) = n → (i < n)%nat →
  good (files st !!! i) = true →
  count_newlines (buf (files st !!! i)) = 0%nat →
  fst (check_match (cur st) n (log st)) = true
  ∨ Variant.lt (cur st !!! i) (cur st !!! max (cur st) n) = true →
  cur (loop_body n st) !!! i
  = (read_variant (files st !!! i) (cur st !!! i)).1.2
  ∧ any_eof (files (loop_body n st)) n = true
  ∧ ∀ fuel, main_loop n fuel (loop_body n st) = Some (0%nat, loop_body n st).
Proof.
  intros Hf Hc Hi Hg Hnl Hadv.
  assert (eof (files st !!! i) = false) as Heof.
  { unfold good, eof in *. by destruct (eofbit (files st !!! i)). }
  assert ((files (loop_body n st) !!! i, cur (loop_body n st) !!! i)
          = (read_variant (files st !!! i) (cur st !!! i)).1) as Hpt.
  { destruct (check_match (cur st) n (log st)) as [[] lg'] eqn:Hcm.
    - rewrite (loop_body_match _ _ _ Hcm). simpl.
      pose proof (read_variants_pointwise (files st) (cur st) n i Hf Hc) as Hpt.
      by rewrite Heof, bool_decide_eq_true_2 in Hpt by done.
    - destruct Hadv as [Hadv|Hlt]; [done|].
      rewrite loop_body_mismatch by by rewrite Hcm. simpl.
      pose proof (read_variants_until_max_pointwise
                    (files st) (cur st) (max (cur st) n) n i Hf Hc) as Hpt.
      by rewrite Hlt, Heof, bool_decide_eq_true_2 in Hpt by done. }
  assert (any_eof (files (loop_body n st)) n = true) as Hend.
  { apply (any_eof_true _ _ i Hi).
    apply (f_equal fst) in Hpt. simpl in Hpt.
    rewrite Hpt, read_variant_file. by apply getline_last_line. }
  split; [by apply (f_equal snd) in Hpt|]. split; [done|].
  intros fuel. by apply main_loop_at_eof.
Qed.

Lemma unterminated_last_line_ends_run_witness :
  fst (check_match (cur last_lines_entry) 2 (log last_lines_entry)) = true
  ∧ name (cur (loop_body 2 last_lines_entry) !!! 0%nat) = "rs2"
  ∧ any_eof (files (loop_body 2 last_lines_entry)) 2 = true
  ∧ names_lists (log (loop_body 2 last_lines_entry)) = ["rs1" +:+ endl; "rs1b" +:+ endl]
  ∧ ∀ fuel, main_loop 2 fuel (loop_body 2 last_lines_entry)
            = Some (0%nat, loop_body 2 last_lines_entry).
Proof.
  assert (fst (check_match (cur last_lines_entry) 2 (log last_lines_entry)) = true)
    as Hcm by (vm_compute; reflexivity).
  split; [done|].
  destruct (unterminated_last_line_ends_run 2 last_lines_entry 0
              ltac:(vm_compute; reflexivity) ltac:(vm_compute; reflexivity)
              ltac:(lia) ltac:(vm_compute; reflexivity)
              ltac:(vm_compute; reflexivity) (or_introl Hcm))
    as (Hcur & Hend & Hexit).
  split; [rewrite Hcur; vm_compute; reflexivity|].
  split; [done|]. split; [vm_compute; reflexivity | done].
Defined.

Lemma exit_status_tells_merge_witness :
  ∃ e, main scenario_A ["f1.bim"; "f2.bim"] 1 = Some e
       ∧ ((status e = 0 ∧ ∃ st, merged e = Some st ∧ outputs e = Some (log st)
                                ∧ any_eof (files st) 2 = true)
          ∨ (status e = 1 ∧ merged e = None))
       ∧ (cerr e ≠ "" → outputs e = None ∧ cout e = "" ∧ status e = 1)
       ∧ (status e = 0 → cerr e = "").
Proof.
  destruct (main scenario_A ["f1.bim"; "f2.bim"] 1) as [e|] eqn:Hmain;
    [|vm_compute in Hmain; discriminate].
  exists e. split; [done|].
  exact (exit_status_tells_merge scenario_A ["f1.bim"; "f2.bim"] 1 e Hmain).
Defined.

(** ** Numbers that do not fit *)

Lemma parse_line_chrom line v :
  chrom (parse_line line v) = (extract_uint (open_stream line) (chrom v)).2.
Proof.
  rewrite parse_line_unfold. cbv zeta.
  destruct (extract_uint (open_stream line) (chrom v)) as [s0 c'].
  destruct (extract_string (ws s0) (name v)) as [s1 n'].
  destruct (extract_string (ws s1) "") as [s2 cm].
  destruct (extract_uint (ws s2) (position v)) as [s3 p'].
  destruct (extract_string (ws s3) (a1 v)) as [s4 x'].
  by destruct (extract_string (ws s4) (a2 v)) as [s5 y'].
Qed.

(** A printed number of any size in front of a character that is no
    digit: the number is stored when it fits, [UINT_MAX] when not. *)
Lemma extract_uint_saturates n c s u :
  digit_of c = None →
  (extract_uint (open_stream (show_uint n +:+ String c s)) u).2
  = N.min n UINT_MAX.
Proof.
  intros Hc. unfold extract_uint, sentry, show_uint. simpl.
  destruct (string_of_uint_head (N.to_uint n) (String c s) (to_uint_not_nil n))
    as (Hhead & Hsign & Hds).
  rewrite skipws_head by done.
  destruct (NilEmpty.string_of_uint (N.to_uint n) +:+ String c s) eqn:Hs;
    [done|]. simpl buf. rewrite Hsign, <- Hs, read_digits_uint by done.
  rewrite decimal_value_uint, DecimalN.Unsigned.of_to.
  destruct (uint_digits (N.to_uint n)); [done|].
  destruct (N.ltb_spec UINT_MAX n); simpl; lia.
Qed.

(** The same behind a minus sign: a number that fits is negated modulo
    [2^32]. *)
Lemma extract_uint_negative n c s u :
  digit_of c = None → (n ≤ UINT_MAX)%N →
  (extract_uint (open_stream ("-" +:+ show_uint n +:+ String c s)) u).2
  = ((UINT_MAX + 1 - n) mod (UINT_MAX + 1))%N.
Proof.
  intros Hc Hn. unfold extract_uint, sentry, show_uint.
  rewrite append_cons, append_nil_l. simpl.
  rewrite read_digits_uint by done.
  rewrite decimal_value_uint, DecimalN.Unsigned.of_to.
  destruct (string_of_uint_head (N.to_uint n) (String c s) (to_uint_not_nil n))
    as (_ & _ & Hds).
  destruct (uint_digits (N.to_uint n)); [done|].
  by destruct (N.ltb_spec UINT_MAX n); [lia|].
Qed.

Lemma read_variant_chrom file v :
  (getline file).2 ≠ "" →
  chrom (read_variant file v).1.2
  = (extract_uint (open_stream (getline file).2) (chrom v)).2.
Proof.
  intros Hne. unfold read_variant. destruct (getline file) as [f line].
  simpl in *. destruct (String.eqb_spec line ""); [done|]. simpl.
  apply parse_line_chrom.
Qed.

(** X4: the chromosome read from a line saturates and wraps like an
    [unsigned int].  When the line starts with a decimal number of any
    size, the chromosome stored is that number if it is at most
    [UINT_MAX] and [UINT_MAX] otherwise; when it starts with a minus sign
    and a number that is at most [UINT_MAX], the chromosome stored is
    [2^32] minus that number, modulo [2^32]; and whatever the line holds,
    a record whose numbers fit an [unsigned int] before the call has
    numbers that fit after it. *)
Theorem read_variant_saturates (file : istream) (v : Variant) :
  (∀ n c s, (getline file).2 = show_uint n +:+ String c s →
            digit_of c = None →
            chrom (read_variant file v).1.2 = N.min n UINT_MAX)
  ∧ (∀ n c s, (getline file).2 = "-" +:+ show_uint n +:+ String c s →
              digit_of c = None → (n ≤ UINT_MAX)%N →
              chrom (read_variant file v).1.2
              = ((UINT_MAX + 1 - n) mod (UINT_MAX + 1))%N)
  ∧ (in_range v → in_range (read_variant file v).1.2).
Proof.
  split; [|split].
  - intros n c s Hline Hc. rewrite read_variant_chrom.
    + rewrite Hline. by apply extract_uint_saturates.
    + rewrite Hline. pose proof (show_uint_head n (String c s)) as H.
      by destruct (show_uint n +:+ String c s).
  - intros n c s Hline Hc Hn. rewrite read_variant_chrom.
    + rewrite Hline. by apply extract_uint_negative.
    + by rewrite Hline.
  - apply read_variant_in_range.
Qed.

(** A chromosome of eleven digits is stored as [UINT_MAX], the chromosome
    [-1] as [UINT_MAX] as well, [-2] as one less. *)
Lemma read_variant_saturates_witness :
  chrom (read_variant (open_stream "99999999999 rs1 0 100 A G") stale).1.2
  = UINT_MAX
  ∧ chrom (read_variant (open_stream "-2 rs1 0 100 A G") stale).1.2
    = 4294967294
  ∧ in_range (read_variant (open_stream "-2 rs1 0 100 A G") stale).1.2.
Proof.
  destruct (read_variant_saturates (open_stream "99999999999 rs1 0 100 A G") stale)
    as (Hsat & _ & _).
  destruct (read_variant_saturates (open_stream "-2 rs1 0 100 A G") stale)
    as (_ & Hneg & Hrange).
  split; [|split].
  - exact (Hsat 99999999999 " "%char "rs1 0 100 A G" eq_refl eq_refl).
  - refine (Hneg 2 " "%char "rs1 0 100 A G" eq_refl eq_refl _).
    vm_compute. discriminate.
  - apply Hrange. split; vm_compute; discriminate.
Defined.
